(** * Open-addressing hash sets of Lab 3: the generic table, the string
      table and the early table

    The repository implements one set interface ([createSet], [numElements],
    [addElement], [removeElement], [findElement], [getElements]) three times:

    - the generic table (callbacks [compare] and [hash] stored in the
      struct), embedded in [Module GenericTable];
    - the string table ([strcmp] and [strhash]), which has the same code
      with the two callbacks fixed, embedded in [Module StringTable];
    - the early table of [src/generic/table.c], whose probe does not wrap
      around, embedded in [Module EarlyTable].

    The definitions come first; the modules that follow them hold the
    lemmas on the generic table ([GenericTableTheory]), the contract of
    the set ([SetContract], [SetProperties]), and what the string table
    ([StringTableTheory], [StringSet]) and the early table ([EarlySet])
    do.

    C objects are embedded as follows.  An [unsigned] is a [Z] in
    [0, 2^32) and every arithmetic operation that the code performs on it
    is followed by [wrap].  An array is a [list], read with [!!] and
    written with [aset], which fails outside the bounds.  A function
    returns [None] when the C execution has no defined result: a failed
    [assert], a division by zero, an access outside an array, or the use
    of a pointer that was never written.  [malloc] and [strdup] are taken
    to return an object, also for a request of no byte. *)

From Stdlib Require Import ZArith Lia Ascii String.
From stdpp Require Import base numbers option list sets gmap.

Local Open Scope Z_scope.

(** ** Machine integers and arrays *)

(** Reduction of an [unsigned] result modulo [2^32]. *)
Definition wrap (z : Z) : Z := z mod 2 ^ 32.

(** Conversion of an [unsigned] to [int], as in [return sp->count;]. *)
Definition to_int (z : Z) : Z := if z <? 2 ^ 31 then z else z - 2 ^ 32.

(** [a[i] = v]; undefined outside the bounds of [a]. *)
Definition aset {A} (a : list A) (i : Z) (v : A) : option (list A) :=
  if bool_decide (0 <= i < Z.of_nat (length a))
  then Some (<[Z.to_nat i := v]> a)
  else None.

(** The three values of a flag: [// 0 = empty, 1 = filled, 2 = deleted]. *)
Definition EMPTY : Z := 0.
Definition FILLED : Z := 1.
Definition DELETED : Z := 2.

(** Number of slots whose flag is [FILLED]. *)
Definition occupied_count (fl : list Z) : Z :=
  Z.of_nat (length (filter (λ f, f = FILLED) fl)).

(** The result of one execution of the body shared by the [if] and the
    [while] of [findElementIndex]: either the function returns, or the
    loop variables [index] and [firstDeleted] are updated. *)
Inductive probe_step : Type :=
  | Return (index : Z) (found : bool)
  | Continue (index firstDeleted : Z).

(** ** The generic table *)

Module GenericTable.

Section WithElements.

Context {Elt : Type}.

(** The duplication routine called by [addElement]; it is a library
    function, so the development is parametric in what it returns. *)
Variable strdup : Elt → Elt.

(** [typedef struct set { ... } genericTable;]  A cell of [data] holds
    [None] until a pointer has been stored in it. *)
Record genericTable : Type := mkTable {
  data : list (option Elt);
  flags : list Z;
  count : Z;
  size : Z;
  compare : Elt → Elt → Z;
  hash : Elt → Z
}.

(** [createSet(maxElts, compare, hash)]; [maxElts] is an [int]. *)
Definition createSet (maxElts : Z) (cmp : Elt → Elt → Z) (h : Elt → Z)
  : option genericTable :=
  if bool_decide (0 <= maxElts < 2 ^ 31) then
    Some {| data := replicate (Z.to_nat maxElts) None;
            flags := replicate (Z.to_nat maxElts) EMPTY;
            count := 0;
            size := maxElts;
            compare := cmp;
            hash := h |}
  else None.

(** [numElements(sp)]: the table is returned along with the result to make
    the absence of writes a statement about the function. *)
Definition numElements (sp : genericTable) : option (Z * genericTable) :=
  Some (to_int (count sp), sp).

(** The body executed at each visited slot. *)
Definition probe_body (sp : genericTable) (elt : Elt)
    (index firstDeleted : Z) : option probe_step :=
  f ← flags sp !! Z.to_nat index;
  if f =? EMPTY then Some (Return index false)
  else
    matched ← (if f =? FILLED
               then x ← mjoin (data sp !! Z.to_nat index);
                    Some (compare sp x elt =? 0)
               else Some false);
    if (matched : bool) then Some (Return index true)
    else Some (Continue (wrap (index + 1) mod size sp)
                 (if (f =? DELETED) && (firstDeleted =? size sp)
                  then index else firstDeleted)).

(** [while (index < sp->size && index != home) { ... }] followed by
    [return firstDeleted;]. *)
Fixpoint probe_while (fuel : nat) (sp : genericTable) (elt : Elt)
    (home index firstDeleted : Z) : option (Z * bool) :=
  if (index <? size sp) && negb (index =? home) then
    match fuel with
    | O => None
    | S fuel' =>
        match probe_body sp elt index firstDeleted with
        | Some (Return i b) => Some (i, b)
        | Some (Continue i fd) => probe_while fuel' sp elt home i fd
        | None => None
        end
    end
  else Some (firstDeleted, false).

(** [findElementIndex(sp, elt, &found)]: the returned pair is the result
    and the value stored in [found]. *)
Definition findElementIndex (sp : genericTable) (elt : option Elt)
  : option (Z * bool) :=
  e ← elt;
  if size sp =? 0 then None
  else
    let home := wrap (hash sp e) mod size sp in
    let index := home in
    let firstDeleted := size sp in
    if index <? size sp then
      match probe_body sp e index firstDeleted with
      | Some (Return i b) => Some (i, b)
      | Some (Continue i fd) =>
          probe_while (Z.to_nat (size sp)) sp e home i fd
      | None => None
      end
    else probe_while (Z.to_nat (size sp)) sp e home index firstDeleted.

(** [addElement(sp, elt)]. *)
Definition addElement (sp : genericTable) (elt : option Elt)
  : option genericTable :=
  e ← elt;
  if count sp <? size sp then
    '(index, alreadyExists) ← findElementIndex sp (Some e);
    if (alreadyExists : bool) then Some sp
    else
      d ← aset (data sp) index (Some (strdup e));
      f ← aset (flags sp) index FILLED;
      Some {| data := d; flags := f; count := wrap (count sp + 1);
              size := size sp; compare := compare sp; hash := hash sp |}
  else None.

(** [removeElement(sp, elt)]. *)
Definition removeElement (sp : genericTable) (elt : option Elt)
  : option genericTable :=
  match elt with
  | None => Some sp
  | Some e =>
      '(index, found) ← findElementIndex sp (Some e);
      if negb found then Some sp
      else
        f ← aset (flags sp) index DELETED;
        Some {| data := data sp; flags := f; count := wrap (count sp - 1);
                size := size sp; compare := compare sp; hash := hash sp |}
  end.

(** [findElement(sp, elt)]: the result is [None] for [NULL]. *)
Definition findElement (sp : genericTable) (elt : option Elt)
  : option (option Elt * genericTable) :=
  match elt with
  | None => Some (None, sp)
  | Some e =>
      '(a, found) ← findElementIndex sp (Some e);
      if negb found then Some (None, sp)
      else p ← data sp !! Z.to_nat a; Some (p, sp)
  end.

(** The [for] loop of [getElements]; [toReturn] has [sp->count] cells. *)
Fixpoint getElements_for (fuel : nat) (sp : genericTable) (i whereToAdd : Z)
    (toReturn : list (option Elt)) : option (list (option Elt)) :=
  if i <? size sp then
    match fuel with
    | O => None
    | S fuel' =>
        f ← flags sp !! Z.to_nat i;
        if f =? FILLED then
          p ← data sp !! Z.to_nat i;
          r ← aset toReturn whereToAdd p;
          getElements_for fuel' sp (wrap (i + 1)) (wrap (whereToAdd + 1)) r
        else getElements_for fuel' sp (wrap (i + 1)) whereToAdd toReturn
    end
  else Some toReturn.

(** [getElements(sp)]. *)
Definition getElements (sp : genericTable)
  : option (list (option Elt) * genericTable) :=
  r ← getElements_for (Z.to_nat (size sp)) sp 0 0
        (replicate (Z.to_nat (count sp)) None);
  Some (r, sp).

(** *** The probe with the list of the slots it reads

    The same two functions, extended with the list of the indices at which
    the body was executed, in order. *)

Fixpoint probe_while_traced (fuel : nat) (sp : genericTable) (elt : Elt)
    (home index firstDeleted : Z) (visited : list Z)
  : option (Z * bool * list Z) :=
  if (index <? size sp) && negb (index =? home) then
    match fuel with
    | O => None
    | S fuel' =>
        match probe_body sp elt index firstDeleted with
        | Some (Return i b) => Some (i, b, visited ++ [index])
        | Some (Continue i fd) =>
            probe_while_traced fuel' sp elt home i fd (visited ++ [index])
        | None => None
        end
    end
  else Some (firstDeleted, false, visited).

Definition findElementIndex_traced (sp : genericTable) (elt : option Elt)
  : option (Z * bool * list Z) :=
  e ← elt;
  if size sp =? 0 then None
  else
    let home := wrap (hash sp e) mod size sp in
    let index := home in
    let firstDeleted := size sp in
    if index <? size sp then
      match probe_body sp e index firstDeleted with
      | Some (Return i b) => Some (i, b, [index])
      | Some (Continue i fd) =>
          probe_while_traced (Z.to_nat (size sp)) sp e home i fd [index]
      | None => None
      end
    else probe_while_traced (Z.to_nat (size sp)) sp e home index
           firstDeleted [].

(** *** Specification vocabulary *)

(** The home slot of an element. *)
Definition home_slot (sp : genericTable) (e : Elt) : Z :=
  wrap (hash sp e) mod size sp.

(** The [k]-th slot of the probe sequence that starts at [home] in a table
    of [n] slots, and the whole sequence. *)
Definition slot (n home : Z) (k : nat) : Z := (home + Z.of_nat k) mod n.

Definition walk (n home : Z) : list Z :=
  slot n home <$> seq 0 (Z.to_nat n).

(** What the body does at a slot, independently of [firstDeleted]: it
    returns not found ([Empty]), returns found ([Match]) or goes on
    ([Skip]). *)
Inductive slot_class : Type := Empty | Match | Skip.

Definition classify (sp : genericTable) (e : Elt) (i : Z)
  : option slot_class :=
  f ← flags sp !! Z.to_nat i;
  if f =? EMPTY then Some Empty
  else if f =? FILLED then
    x ← mjoin (data sp !! Z.to_nat i);
    Some (if compare sp x e =? 0 then Match else Skip)
  else Some Skip.

(** The update of [firstDeleted] made when the body goes on. *)
Definition note_deleted (sp : genericTable) (i firstDeleted : Z) : Z :=
  if bool_decide (flags sp !! Z.to_nat i = Some DELETED)
     && (firstDeleted =? size sp)
  then i else firstDeleted.

(** The probe along a given list of slots. *)
Fixpoint probe_along (sp : genericTable) (e : Elt) (w : list Z)
    (firstDeleted : Z) : option (Z * bool) :=
  match w with
  | [] => Some (firstDeleted, false)
  | i :: w' =>
      match classify sp e i with
      | Some Empty => Some (i, false)
      | Some Match => Some (i, true)
      | Some Skip => probe_along sp e w' (note_deleted sp i firstDeleted)
      | None => None
      end
  end.

(** The value of [firstDeleted] after the slots of [w] were all skipped. *)
Definition final_deleted (sp : genericTable) (w : list Z) (fd : Z) : Z :=
  fold_left (λ d j, note_deleted sp j d) w fd.

(** Representation invariant: the arrays have [size] cells, [size] came
    from a non-negative [int], every flag is one of the three values,
    [count] is the number of filled slots and a filled slot holds a
    pointer that was stored. *)
Record rep (sp : genericTable) : Prop := mkRep {
  rep_size : 0 <= size sp < 2 ^ 31;
  rep_flags : length (flags sp) = Z.to_nat (size sp);
  rep_data : length (data sp) = Z.to_nat (size sp);
  rep_range : Forall (λ f, f = EMPTY ∨ f = FILLED ∨ f = DELETED) (flags sp);
  rep_count : count sp = occupied_count (flags sp);
  rep_owned : ∀ i : nat, flags sp !! i = Some FILLED →
                ∃ x, data sp !! i = Some (Some x)
}.

(** Slot [i] is filled and holds [x]. *)
Definition holds (sp : genericTable) (i : nat) (x : Elt) : Prop :=
  flags sp !! i = Some FILLED ∧ data sp !! i = Some (Some x).

(** Some filled slot holds an element that compares equal to [e]. *)
Definition member (sp : genericTable) (e : Elt) : Prop :=
  ∃ i x, holds sp i x ∧ compare sp x e = 0.

(** No two filled slots hold elements that compare equal. *)
Definition no_duplicates (sp : genericTable) : Prop :=
  ∀ i j x y, holds sp i x → holds sp j y → compare sp x y = 0 → i = j.

(** No empty slot lies on the probe sequence of a stored element before
    the slot that holds it. *)
Definition chained (sp : genericTable) : Prop :=
  ∀ (k : nat) x,
    (k < Z.to_nat (size sp))%nat →
    holds sp (Z.to_nat (slot (size sp) (home_slot sp x) k)) x →
    ∀ k' : nat, (k' < k)%nat →
      flags sp !! Z.to_nat (slot (size sp) (home_slot sp x) k') ≠ Some EMPTY.

(** The callbacks agree with each other and with the duplication routine:
    comparing equal is symmetric and transitive, elements that compare
    equal have the same hash, and a duplicate compares equal to its
    original. *)
Record lawful (sp : genericTable) : Prop := mkLawful {
  law_sym : ∀ x y, compare sp x y = 0 → compare sp y x = 0;
  law_trans : ∀ x y z,
    compare sp x y = 0 → compare sp y z = 0 → compare sp x z = 0;
  law_hash : ∀ x y, compare sp x y = 0 → hash sp x = hash sp y;
  law_dup : ∀ x, compare sp (strdup x) x = 0
}.

(** The table after the three writes of [addElement] at slot [i], where
    [p] is the pointer stored. *)
Definition filled_at (sp : genericTable) (i : Z) (p : Elt) : genericTable :=
  {| data := <[Z.to_nat i := Some p]> (data sp);
     flags := <[Z.to_nat i := FILLED]> (flags sp);
     count := count sp + 1;
     size := size sp;
     compare := compare sp;
     hash := hash sp |}.

(** The table after the two writes of [removeElement] at slot [i]. *)
Definition deleted_at (sp : genericTable) (i : Z) : genericTable :=
  {| data := data sp;
     flags := <[Z.to_nat i := DELETED]> (flags sp);
     count := count sp - 1;
     size := size sp;
     compare := compare sp;
     hash := hash sp |}.

(** The probe for [e] goes past slot [j]: the slot is a tombstone, or it
    is filled with an element that does not compare equal to [e]. *)
Definition passed (sp : genericTable) (e : Elt) (j : Z) : Prop :=
  flags sp !! Z.to_nat j = Some DELETED
  ∨ ∃ x, holds sp (Z.to_nat j) x ∧ compare sp x e ≠ 0.

(** Every slot that is not empty holds a pointer that was stored. *)
Definition nonempty_owned (sp : genericTable) : Prop :=
  ∀ (i : nat) f, flags sp !! i = Some f → f ≠ EMPTY →
                 ∃ x, data sp !! i = Some (Some x).

(** The invariant of the tables that the operations build. *)
Definition consistent (sp : genericTable) : Prop :=
  rep sp ∧ chained sp ∧ no_duplicates sp.

(** The tables obtained from [createSet] by calls of [addElement] and
    [removeElement] that return. *)
Inductive reachable : genericTable → Prop :=
  | reach_create maxElts cmp h sp :
      createSet maxElts cmp h = Some sp → reachable sp
  | reach_add sp elt sp' :
      reachable sp → addElement sp elt = Some sp' → reachable sp'
  | reach_remove sp elt sp' :
      reachable sp → removeElement sp elt = Some sp' → reachable sp'.

(** The cells of the filled slots, in the order of the slot array. *)
Fixpoint filled_cells (fl : list Z) (d : list (option Elt))
  : list (option Elt) :=
  match fl, d with
  | f :: fl', p :: d' =>
      if f =? FILLED then p :: filled_cells fl' d' else filled_cells fl' d'
  | _, _ => []
  end.


End WithElements.

End GenericTable.

(** ** The scenario of the specification

    Capacity 4, hash = identity mod 4, equal = integer equality.  The
    elements are integers and the duplicate of an integer is that
    integer. *)

Module Scenario.

Import GenericTable.

Definition int_equal (x y : Z) : Z := if bool_decide (x = y) then 0 else 1.

Definition int_hash (x : Z) : Z := x mod 4.

Definition int_dup (x : Z) : Z := x.

(** [createSet(4, int_equal, int_hash)]. *)
Definition created : option genericTable := createSet 4 int_equal int_hash.

(** [add(1); add(5); add(2)]. *)
Definition after_adds : option genericTable :=
  sp ← created;
  sp ← addElement int_dup sp (Some 1);
  sp ← addElement int_dup sp (Some 5);
  addElement int_dup sp (Some 2).

(** [remove(5)]. *)
Definition after_remove : option genericTable :=
  sp ← after_adds; removeElement sp (Some 5).

(** [add(9)]. *)
Definition after_add9 : option genericTable :=
  sp ← after_remove; addElement int_dup sp (Some 9).

(** The tables that the three steps produce. *)
Definition table_after_adds : genericTable :=
  {| data := [None; Some 1; Some 5; Some 2];
     flags := [EMPTY; FILLED; FILLED; FILLED];
     count := 3; size := 4; compare := int_equal; hash := int_hash |}.

Definition table_after_remove : genericTable :=
  {| data := [None; Some 1; Some 5; Some 2];
     flags := [EMPTY; FILLED; DELETED; FILLED];
     count := 2; size := 4; compare := int_equal; hash := int_hash |}.

Definition table_after_add9 : genericTable :=
  {| data := [Some 9; Some 1; Some 5; Some 2];
     flags := [FILLED; FILLED; DELETED; FILLED];
     count := 3; size := 4; compare := int_equal; hash := int_hash |}.


End Scenario.

(** ** Elements behind pointers

    For the question of who owns what [getElements] returns, the cells of
    a table hold addresses and a heap maps each address to the element
    stored there.  The generic table is used at the element type [Z] of
    addresses. *)

Module Pointers.

Import GenericTable.

(** The elements designated by a list of cells. *)
Definition deref (m : gmap Z Z) (cells : list (option Z))
  : list (option Z) :=
  (λ c, a ← c; m !! a) <$> cells.

(** The elements that the filled slots of a table designate. *)
Definition stored (m : gmap Z Z) (sp : @genericTable Z) : list (option Z) :=
  deref m (filled_cells (flags sp) (data sp)).

(** A table with one slot, filled with the address 100, and a heap in
    which address 100 holds the element 7. *)
Definition one_cell : @genericTable Z :=
  {| data := [Some 100]; flags := [FILLED]; count := 1; size := 1;
     compare := λ a b, if bool_decide (a = b) then 0 else 1;
     hash := λ a, a |}.

Definition one_heap : gmap Z Z := {[ 100 := 7 ]}.

End Pointers.

(** ** The string table

    The first file of [src/unnamed/part_000].  A [char *] argument or
    cell is embedded as the [string] of the characters it points to; the
    functions read it up to the first [NUL] character or its end. *)

Module StringTable.

(** The value of a character as an [unsigned char]. *)
Definition uchar (c : ascii) : Z := Z.of_N (N_of_ascii c).

(** Modelled from the C standard: the library function [strcmp], which
    compares the characters as [unsigned char] up to and including the
    terminator; only the test [== 0] of its result is used. *)
Fixpoint strcmp (s1 s2 : string) : Z :=
  match s1, s2 with
  | EmptyString, EmptyString => 0
  | EmptyString, String c2 _ => 0 - uchar c2
  | String c1 _, EmptyString => uchar c1 - 0
  | String c1 r1, String c2 r2 =>
      if Ascii.eqb c1 c2
      then (if Ascii.eqb c1 Ascii.zero then 0 else strcmp r1 r2)
      else uchar c1 - uchar c2
  end.

(** Modelled from the C standard: the library function [strdup], which
    returns a copy of the characters before the terminator. *)
Fixpoint strdup (s : string) : string :=
  match s with
  | EmptyString => EmptyString
  | String c s' =>
      if Ascii.eqb c Ascii.zero then EmptyString else String c (strdup s')
  end.

Section WithChars.

(** The value of a plain [char] converted to [int]; the C implementation
    fixes it for the characters above 127. *)
Variable char_value : ascii → Z.

(** [typedef struct set { ... } stringTable;] *)
Record stringTable : Type := mkTable {
  data : list (option string);
  flags : list Z;
  count : Z;
  size : Z
}.

(** The [while] loop of [strhash], from the current [hash]. *)
Fixpoint strhash_while (s : string) (hash : Z) : Z :=
  match s with
  | EmptyString => hash
  | String c s' =>
      if Ascii.eqb c Ascii.zero then hash
      else strhash_while s' (wrap (31 * hash + char_value c))
  end.

(** [strhash(s)]. *)
Definition strhash (s : string) : Z := strhash_while s 0.

(** [createSet(maxElts)]. *)
Definition createSet (maxElts : Z) : option stringTable :=
  if bool_decide (0 <= maxElts < 2 ^ 31) then
    Some {| data := replicate (Z.to_nat maxElts) None;
            flags := replicate (Z.to_nat maxElts) EMPTY;
            count := 0;
            size := maxElts |}
  else None.

(** [numElements(sp)]. *)
Definition numElements (sp : stringTable) : option (Z * stringTable) :=
  Some (to_int (count sp), sp).

(** The body executed at each visited slot of [findElementIndex]. *)
Definition probe_body (sp : stringTable) (elt : string)
    (index firstDeleted : Z) : option probe_step :=
  f ← flags sp !! Z.to_nat index;
  if f =? EMPTY then Some (Return index false)
  else
    matched ← (if f =? FILLED
               then x ← mjoin (data sp !! Z.to_nat index);
                    Some (strcmp x elt =? 0)
               else Some false);
    if (matched : bool) then Some (Return index true)
    else Some (Continue (wrap (index + 1) mod size sp)
                 (if (f =? DELETED) && (firstDeleted =? size sp)
                  then index else firstDeleted)).

(** The [while] loop of [findElementIndex]. *)
Fixpoint probe_while (fuel : nat) (sp : stringTable) (elt : string)
    (home index firstDeleted : Z) : option (Z * bool) :=
  if (index <? size sp) && negb (index =? home) then
    match fuel with
    | O => None
    | S fuel' =>
        match probe_body sp elt index firstDeleted with
        | Some (Return i b) => Some (i, b)
        | Some (Continue i fd) => probe_while fuel' sp elt home i fd
        | None => None
        end
    end
  else Some (firstDeleted, false).

(** [findElementIndex(sp, elt, &found)]. *)
Definition findElementIndex (sp : stringTable) (elt : option string)
  : option (Z * bool) :=
  e ← elt;
  if size sp =? 0 then None
  else
    let home := wrap (strhash e) mod size sp in
    let index := home in
    let firstDeleted := size sp in
    if index <? size sp then
      match probe_body sp e index firstDeleted with
      | Some (Return i b) => Some (i, b)
      | Some (Continue i fd) =>
          probe_while (Z.to_nat (size sp)) sp e home i fd
      | None => None
      end
    else probe_while (Z.to_nat (size sp)) sp e home index firstDeleted.

(** [addElement(sp, elt)]. *)
Definition addElement (sp : stringTable) (elt : option string)
  : option stringTable :=
  e ← elt;
  if count sp <? size sp then
    '(index, alreadyExists) ← findElementIndex sp (Some e);
    if (alreadyExists : bool) then Some sp
    else
      d ← aset (data sp) index (Some (strdup e));
      f ← aset (flags sp) index FILLED;
      Some {| data := d; flags := f; count := wrap (count sp + 1);
              size := size sp |}
  else None.

(** [removeElement(sp, elt)]. *)
Definition removeElement (sp : stringTable) (elt : option string)
  : option stringTable :=
  match elt with
  | None => Some sp
  | Some e =>
      '(index, found) ← findElementIndex sp (Some e);
      if negb found then Some sp
      else
        f ← aset (flags sp) index DELETED;
        Some {| data := data sp; flags := f; count := wrap (count sp - 1);
                size := size sp |}
  end.

(** [findElement(sp, elt)]. *)
Definition findElement (sp : stringTable) (elt : option string)
  : option (option string * stringTable) :=
  match elt with
  | None => Some (None, sp)
  | Some e =>
      '(a, found) ← findElementIndex sp (Some e);
      if negb found then Some (None, sp)
      else p ← data sp !! Z.to_nat a; Some (p, sp)
  end.

(** The [for] loop of [getElements]; each filled cell is duplicated. *)
Fixpoint getElements_for (fuel : nat) (sp : stringTable) (i whereToAdd : Z)
    (toReturn : list (option string)) : option (list (option string)) :=
  if i <? size sp then
    match fuel with
    | O => None
    | S fuel' =>
        f ← flags sp !! Z.to_nat i;
        if f =? FILLED then
          s ← mjoin (data sp !! Z.to_nat i);
          r ← aset toReturn whereToAdd (Some (strdup s));
          getElements_for fuel' sp (wrap (i + 1)) (wrap (whereToAdd + 1)) r
        else getElements_for fuel' sp (wrap (i + 1)) whereToAdd toReturn
    end
  else Some toReturn.

(** [getElements(sp)]. *)
Definition getElements (sp : stringTable)
  : option (list (option string) * stringTable) :=
  r ← getElements_for (Z.to_nat (size sp)) sp 0 0
        (replicate (Z.to_nat (count sp)) None);
  Some (r, sp).

(** The [for] loop of [destroySet]; [freed] lists the indices [i] for
    which [free(sp->data[i])] was called. *)
Fixpoint destroySet_for (fuel : nat) (sp : stringTable) (i : Z)
    (freed : list Z) : option (list Z) :=
  if i <? count sp then
    match fuel with
    | O => None
    | S fuel' =>
        f ← flags sp !! Z.to_nat i;
        if negb (f =? EMPTY) then
          _ ← mjoin (data sp !! Z.to_nat i);
          destroySet_for fuel' sp (wrap (i + 1)) (freed ++ [i])
        else destroySet_for fuel' sp (wrap (i + 1)) freed
    end
  else Some freed.

(** [destroySet(sp)]: the result lists the slots whose element was
    freed, before the two arrays are. *)
Definition destroySet (sp : stringTable) : option (list Z) :=
  destroySet_for (Z.to_nat (count sp)) sp 0 [].

(** The string table seen as a generic table whose callbacks are
    [strcmp] and [strhash]. *)
Definition to_generic (sp : stringTable) : @GenericTable.genericTable string :=
  {| GenericTable.data := data sp;
     GenericTable.flags := flags sp;
     GenericTable.count := count sp;
     GenericTable.size := size sp;
     GenericTable.compare := strcmp;
     GenericTable.hash := strhash |}.

(** The tables obtained from [createSet] by calls of [addElement] and
    [removeElement] that return. *)
Inductive reachable : stringTable → Prop :=
  | reach_create maxElts sp :
      createSet maxElts = Some sp → reachable sp
  | reach_add sp elt sp' :
      reachable sp → addElement sp elt = Some sp' → reachable sp'
  | reach_remove sp elt sp' :
      reachable sp → removeElement sp elt = Some sp' → reachable sp'.

End WithChars.

End StringTable.


(** ** The early table

    The file [src/generic/table.c]: a string table whose probe runs from
    the home slot to the end of the array and does not wrap around.  It
    calls [strhash], which it does not define; the function is a
    parameter here.  A cell of [data] holds [None] when it holds no
    pointer to a string (never written, or set to [NULL]). *)

Module EarlyTable.

Section WithHash.

Variable strhash : string → Z.

(** [typedef struct set { ... } stringTable;] *)
Record stringTable : Type := mkTable {
  data : list (option string);
  flags : list Z;
  count : Z;
  size : Z
}.

(** [createSet(maxElts)]: there is no assertion on [maxElts]; with a
    negative [maxElts] the size passed to [malloc] is larger than any
    object and the assertion on its result fails. *)
Definition createSet (maxElts : Z) : option stringTable :=
  if bool_decide (0 <= maxElts < 2 ^ 31) then
    Some {| data := replicate (Z.to_nat maxElts) None;
            flags := replicate (Z.to_nat maxElts) EMPTY;
            count := 0;
            size := maxElts |}
  else None.

(** [numElements(sp)]. *)
Definition numElements (sp : stringTable) : option (Z * stringTable) :=
  Some (to_int (count sp), sp).

(** The body of the [while] loop of [findElementIndex]; to go on is
    [index++]. *)
Definition probe_body (sp : stringTable) (elt : string)
    (index firstDeleted : Z) : option probe_step :=
  f ← flags sp !! Z.to_nat index;
  if f =? EMPTY then Some (Return index false)
  else
    matched ← (if f =? FILLED
               then x ← mjoin (data sp !! Z.to_nat index);
                    Some (StringTable.strcmp x elt =? 0)
               else Some false);
    if (matched : bool) then Some (Return index true)
    else Some (Continue (wrap (index + 1))
                 (if (f =? DELETED) && (firstDeleted =? size sp)
                  then index else firstDeleted)).

(** [while (index < sp->size) { ... }] followed by
    [return firstDeleted;]. *)
Fixpoint probe_while (fuel : nat) (sp : stringTable) (elt : string)
    (index firstDeleted : Z) : option (Z * bool) :=
  if index <? size sp then
    match fuel with
    | O => None
    | S fuel' =>
        match probe_body sp elt index firstDeleted with
        | Some (Return i b) => Some (i, b)
        | Some (Continue i fd) => probe_while fuel' sp elt i fd
        | None => None
        end
    end
  else Some (firstDeleted, false).

(** [findElementIndex(sp, elt, &found)]. *)
Definition findElementIndex (sp : stringTable) (elt : option string)
  : option (Z * bool) :=
  e ← elt;
  if size sp =? 0 then None
  else
    probe_while (Z.to_nat (size sp)) sp e
      (wrap (strhash e) mod size sp) (size sp).

(** [addElement(sp, elt)]: the flag of the slot is not written. *)
Definition addElement (sp : stringTable) (elt : option string)
  : option stringTable :=
  e ← elt;
  if count sp <? size sp then
    '(index, alreadyExists) ← findElementIndex sp (Some e);
    if (alreadyExists : bool) then Some sp
    else
      d ← aset (data sp) index (Some (StringTable.strdup e));
      Some {| data := d; flags := flags sp; count := wrap (count sp + 1);
              size := size sp |}
  else None.

(** [removeElement(sp, elt)]: the string is freed and the cell set to
    [NULL]. *)
Definition removeElement (sp : stringTable) (elt : option string)
  : option stringTable :=
  match elt with
  | None => Some sp
  | Some e =>
      '(index, found) ← findElementIndex sp (Some e);
      if negb found then Some sp
      else
        _ ← mjoin (data sp !! Z.to_nat index);
        f ← aset (flags sp) index DELETED;
        d ← aset (data sp) index None;
        Some {| data := d; flags := f; count := wrap (count sp - 1);
                size := size sp |}
  end.

(** [findElement(sp, elt)]. *)
Definition findElement (sp : stringTable) (elt : option string)
  : option (option string * stringTable) :=
  match elt with
  | None => Some (None, sp)
  | Some e =>
      '(a, found) ← findElementIndex sp (Some e);
      if negb found then Some (None, sp)
      else p ← data sp !! Z.to_nat a; Some (p, sp)
  end.

(** The arrays have [size] cells, [size] came from a non-negative [int],
    and a filled slot holds a pointer to a string. *)
Definition well_formed (sp : stringTable) : Prop :=
  0 <= size sp < 2 ^ 31 ∧
  length (flags sp) = Z.to_nat (size sp) ∧
  length (data sp) = Z.to_nat (size sp) ∧
  ∀ i : nat, flags sp !! i = Some FILLED → ∃ x, data sp !! i = Some (Some x).

(** The tables obtained from [createSet] by calls of [addElement] and
    [removeElement] that return. *)
Inductive reachable : stringTable → Prop :=
  | reach_create maxElts sp :
      createSet maxElts = Some sp → reachable sp
  | reach_add sp elt sp' :
      reachable sp → addElement sp elt = Some sp' → reachable sp'
  | reach_remove sp elt sp' :
      reachable sp → removeElement sp elt = Some sp' → reachable sp'.

End WithHash.

End EarlyTable.

(** ** A string table with one element

    [createSet(4)] followed by [addElement(sp, "c")], with characters
    valued as [unsigned char]: the hash of ["c"] is 99, its home slot is
    3. *)

Module StringScenario.

Import StringTable.

Definition one_string : stringTable :=
  {| data := [None; None; None; Some "c"%string];
     flags := [EMPTY; EMPTY; EMPTY; FILLED];
     count := 1; size := 4 |}.

(** The early table after [createSet(2)] and [addElement(sp, "c")], with
    the [strhash] of the string table: the home slot of ["c"] is 1. *)
Definition early_hash : string → Z := StringTable.strhash StringTable.uchar.

Definition early_one : EarlyTable.stringTable :=
  {| EarlyTable.data := [None; Some "c"%string];
     EarlyTable.flags := [EMPTY; EMPTY];
     EarlyTable.count := 1; EarlyTable.size := 2 |}.

(** An early table in which slot 0 is empty and slot 1, the last one,
    holds ["a"] and is marked filled. *)
Definition early_last_filled : EarlyTable.stringTable :=
  {| EarlyTable.data := [None; Some "a"%string];
     EarlyTable.flags := [EMPTY; FILLED];
     EarlyTable.count := 1; EarlyTable.size := 2 |}.

End StringScenario.

(** * Properties of the generic table *)

Module GenericTableTheory.

Import GenericTable.

#[local] Arguments findElementIndex : simpl never.
#[local] Arguments addElement : simpl never.

(** ** Arrays and counting *)

Lemma aset_Some {A} (a a' : list A) (i : Z) (v : A) :
  aset a i v = Some a' →
  0 <= i < Z.of_nat (length a) ∧ a' = <[Z.to_nat i := v]> a.
Proof.
  unfold aset. case_bool_decide; [|done]. intros [= <-]. done.
Qed.

Lemma aset_in_bounds {A} (a : list A) (i : Z) (v : A) :
  0 <= i < Z.of_nat (length a) → aset a i v = Some (<[Z.to_nat i := v]> a).
Proof. intros H. unfold aset. by rewrite bool_decide_eq_true_2. Qed.

Lemma occupied_count_cons (f : Z) (fl : list Z) :
  occupied_count (f :: fl) =
  (if bool_decide (f = FILLED) then 1 else 0) + occupied_count fl.
Proof.
  unfold occupied_count. rewrite filter_cons.
  case_bool_decide; case_decide; try done; simpl; lia.
Qed.

Lemma occupied_count_bounds (fl : list Z) :
  0 <= occupied_count fl <= Z.of_nat (length fl).
Proof.
  induction fl as [|f fl IH]; [done|].
  rewrite occupied_count_cons. simpl length. case_bool_decide; lia.
Qed.

Lemma occupied_count_insert (fl : list Z) (i : nat) (f v : Z) :
  fl !! i = Some f →
  occupied_count (<[i := v]> fl) =
  occupied_count fl
  - (if bool_decide (f = FILLED) then 1 else 0)
  + (if bool_decide (v = FILLED) then 1 else 0).
Proof.
  revert i. induction fl as [|g fl IH]; intros [|i] Hi; simplify_eq/=.
  - rewrite !occupied_count_cons. lia.
  - rewrite !occupied_count_cons, (IH i Hi). lia.
Qed.

Lemma occupied_count_full (fl : list Z) :
  occupied_count fl = Z.of_nat (length fl) → Forall (λ f, f = FILLED) fl.
Proof.
  induction fl as [|f fl IH]; [constructor|].
  rewrite occupied_count_cons. simpl length.
  pose proof (occupied_count_bounds fl).
  case_bool_decide; intros; constructor; try apply IH; lia.
Qed.

Lemma occupied_count_replicate_empty (n : nat) :
  occupied_count (replicate n EMPTY) = 0.
Proof.
  induction n as [|n IH]; [done|].
  simpl replicate. rewrite occupied_count_cons, IH. done.
Qed.

(** ** Arithmetic of the probe sequence *)

Lemma slot_range (n home : Z) (k : nat) : 0 < n → 0 <= slot n home k < n.
Proof. intros. unfold slot. apply Z.mod_pos_bound. lia. Qed.

Lemma slot_0 (n home : Z) : 0 <= home < n → slot n home 0 = home.
Proof. intros. unfold slot. rewrite Z.add_0_r. by apply Z.mod_small. Qed.

Lemma slot_succ (n home : Z) (k : nat) :
  0 < n < 2 ^ 32 →
  wrap (slot n home k + 1) mod n = slot n home (S k).
Proof.
  intros Hn. pose proof (slot_range n home k ltac:(lia)) as Hk.
  unfold wrap. rewrite (Z.mod_small (_ + 1)) by lia.
  unfold slot. rewrite Zplus_mod_idemp_l. f_equal. lia.
Qed.

Lemma slot_full (n home : Z) :
  0 <= home < n → slot n home (Z.to_nat n) = home.
Proof.
  intros. unfold slot. rewrite Z2Nat.id by lia.
  rewrite <- (Z.mul_1_l n) at 1. rewrite Z.mod_add by lia.
  by apply Z.mod_small.
Qed.

Lemma slot_inj (n home : Z) (k1 k2 : nat) :
  0 < n → (k1 < Z.to_nat n)%nat → (k2 < Z.to_nat n)%nat →
  slot n home k1 = slot n home k2 → k1 = k2.
Proof.
  intros Hn H1 H2. unfold slot. intros Heq.
  assert (Hd : ((home + Z.of_nat k1) - (home + Z.of_nat k2)) mod n = 0).
  { rewrite Zminus_mod, Heq, Z.sub_diag. by apply Z.mod_0_l; lia. }
  replace (home + Z.of_nat k1 - (home + Z.of_nat k2))
    with (Z.of_nat k1 - Z.of_nat k2) in Hd by lia.
  apply Z.mod_divide in Hd; [|lia]. destruct Hd as [q Hq].
  assert (q = 0) by nia. lia.
Qed.

Lemma slot_not_home (n home : Z) (k : nat) :
  0 <= home < n → (0 < k < Z.to_nat n)%nat → slot n home k ≠ home.
Proof.
  intros Hh Hk Heq. rewrite <- (slot_0 n home Hh) in Heq at 2.
  apply slot_inj in Heq; lia.
Qed.

Lemma slot_surj (n home j : Z) :
  0 <= home < n → 0 <= j < n →
  ∃ k : nat, (k < Z.to_nat n)%nat ∧ slot n home k = j.
Proof.
  intros Hh Hj. exists (Z.to_nat ((j - home) mod n)).
  pose proof (Z.mod_pos_bound (j - home) n ltac:(lia)).
  split; [lia|]. unfold slot. rewrite Z2Nat.id by lia.
  rewrite Zplus_mod_idemp_r. replace (home + (j - home)) with j by lia.
  by apply Z.mod_small.
Qed.

Lemma walk_lookup (n home : Z) (k : nat) :
  (k < Z.to_nat n)%nat → walk n home !! k = Some (slot n home k).
Proof.
  intros Hk. unfold walk. rewrite list_lookup_fmap, lookup_seq_lt by done.
  done.
Qed.

Lemma walk_length (n home : Z) : length (walk n home) = Z.to_nat n.
Proof. unfold walk. by rewrite length_fmap, length_seq. Qed.

Lemma walk_range (n home i : Z) : 0 < n → i ∈ walk n home → 0 <= i < n.
Proof.
  intros Hn. unfold walk. intros (k & -> & _)%list_elem_of_fmap.
  by apply slot_range.
Qed.

Lemma walk_elem (n home j : Z) :
  0 <= home < n → 0 <= j < n → j ∈ walk n home.
Proof.
  intros Hh Hj. destruct (slot_surj n home j Hh Hj) as (k & Hk & <-).
  apply list_elem_of_lookup. exists k. by apply walk_lookup.
Qed.

Lemma walk_NoDup (n home : Z) : 0 < n → NoDup (walk n home).
Proof.
  intros Hn. apply NoDup_alt. intros k1 k2 i H1 H2.
  pose proof (lookup_lt_Some _ _ _ H1) as L1.
  pose proof (lookup_lt_Some _ _ _ H2) as L2.
  rewrite walk_length in L1, L2.
  rewrite walk_lookup in H1, H2 by done. simplify_eq.
  eapply slot_inj; eauto.
Qed.

(** ** The probe follows the probe sequence *)

Section Probe.

Context {Elt : Type}.

Implicit Types (sp : @genericTable Elt) (e x : Elt).

Lemma probe_body_classify sp e i fd :
  probe_body sp e i fd =
  match classify sp e i with
  | Some Empty => Some (Return i false)
  | Some Match => Some (Return i true)
  | Some Skip =>
      Some (Continue (wrap (i + 1) mod size sp) (note_deleted sp i fd))
  | None => None
  end.
Proof.
  unfold probe_body, classify, note_deleted, EMPTY, FILLED, DELETED.
  destruct (flags sp !! Z.to_nat i) as [f|]; simpl; [|done].
  destruct (Z.eqb_spec f 0); [done|].
  destruct (Z.eqb_spec f 1); simpl.
  - destruct (data sp !! Z.to_nat i) as [[x|]|]; simpl; try done.
    destruct (compare sp x e =? 0); simpl; [done|].
    subst f. rewrite bool_decide_eq_false_2 by congruence. done.
  - destruct (Z.eqb_spec f 2).
    + subst f. by rewrite bool_decide_eq_true_2.
    + rewrite bool_decide_eq_false_2 by congruence. done.
Qed.

Lemma probe_while_along sp e home fuel (k : nat) fd :
  0 < size sp < 2 ^ 32 → 0 <= home < size sp →
  (0 < k <= Z.to_nat (size sp))%nat →
  (Z.to_nat (size sp) - k <= fuel)%nat →
  probe_while fuel sp e home (slot (size sp) home k) fd =
  probe_along sp e
    (slot (size sp) home <$> seq k (Z.to_nat (size sp) - k)) fd.
Proof.
  intros Hn Hh. revert k fd.
  induction fuel as [|fuel IH]; intros k fd Hk Hfuel.
  - assert (k = Z.to_nat (size sp)) as -> by lia.
    rewrite slot_full, Nat.sub_diag by done. simpl.
    rewrite Z.eqb_refl, andb_false_r. done.
  - destruct (decide (k = Z.to_nat (size sp))) as [->|Hne].
    + rewrite slot_full, Nat.sub_diag by done. simpl.
      rewrite Z.eqb_refl, andb_false_r. done.
    + pose proof (slot_range (size sp) home k ltac:(lia)) as Hr.
      pose proof (slot_not_home (size sp) home k Hh ltac:(lia)) as Hnh.
      replace (Z.to_nat (size sp) - k)%nat
        with (S (Z.to_nat (size sp) - S k)) by lia.
      simpl.
      rewrite (proj2 (Z.ltb_lt _ _)) by lia.
      rewrite (proj2 (Z.eqb_neq _ _)) by done. simpl.
      rewrite probe_body_classify.
      destruct (classify sp e _) as [[]|]; try done.
      rewrite slot_succ by done. apply IH; lia.
Qed.

Lemma walk_unfold (n home : Z) :
  0 < n → 0 <= home < n →
  walk n home = home :: (slot n home <$> seq 1 (Z.to_nat n - 1)).
Proof.
  intros Hn Hh. unfold walk.
  replace (Z.to_nat n) with (S (Z.to_nat n - 1)) at 1 by lia.
  simpl. by rewrite slot_0.
Qed.

Lemma home_slot_range sp e : 0 < size sp → 0 <= home_slot sp e < size sp.
Proof. intros. unfold home_slot. apply Z.mod_pos_bound. lia. Qed.

(** On a table with at least one slot, [findElementIndex] is the probe
    along the probe sequence of the element, started with
    [firstDeleted = sp->size]. *)
Lemma findElementIndex_along sp e :
  0 < size sp < 2 ^ 32 →
  findElementIndex sp (Some e) =
  probe_along sp e (walk (size sp) (home_slot sp e)) (size sp).
Proof.
  intros Hn. pose proof (home_slot_range sp e ltac:(lia)) as Hh.
  unfold findElementIndex. simpl. fold (home_slot sp e).
  rewrite (proj2 (Z.eqb_neq _ _)) by lia.
  rewrite (proj2 (Z.ltb_lt _ _)) by lia.
  rewrite walk_unfold by lia. simpl.
  rewrite probe_body_classify.
  destruct (classify sp e _) as [[]|]; try done.
  rewrite <- (slot_0 (size sp) (home_slot sp e)) at 2 by done.
  rewrite slot_succ by done.
  apply probe_while_along; try done; lia.
Qed.

End Probe.

(** ** Outcomes of the probe along a list of slots *)

Section Along.

Context {Elt : Type}.

Implicit Types (sp : @genericTable Elt) (e x : Elt) (w : list Z).

Lemma classify_Empty sp e i :
  classify sp e i = Some Empty ↔ flags sp !! Z.to_nat i = Some EMPTY.
Proof.
  unfold classify, EMPTY, FILLED.
  destruct (flags sp !! Z.to_nat i) as [f|]; simpl; [|done].
  destruct (Z.eqb_spec f 0); [split; intros; congruence|].
  destruct (Z.eqb_spec f 1).
  - destruct (data sp !! Z.to_nat i) as [[x|]|]; simpl;
      try destruct (compare sp x e =? 0); split; intros; congruence.
  - split; intros; congruence.
Qed.

Lemma classify_Match sp e i :
  classify sp e i = Some Match ↔
  ∃ x, holds sp (Z.to_nat i) x ∧ compare sp x e = 0.
Proof.
  unfold classify, holds, EMPTY, FILLED.
  destruct (flags sp !! Z.to_nat i) as [f|]; simpl;
    [|split; [done|intros (?&[? ?]&?); done]].
  destruct (Z.eqb_spec f 0).
  { split; [done|]. intros (?&[? ?]&?). congruence. }
  destruct (Z.eqb_spec f 1).
  - destruct (data sp !! Z.to_nat i) as [[x|]|]; simpl.
    + destruct (Z.eqb_spec (compare sp x e) 0).
      * split; [|done]. intros _. exists x. subst. done.
      * split; [done|]. intros (y&[? ?]&?). congruence.
    + split; [done|]. intros (?&[? ?]&?). congruence.
    + split; [done|]. intros (?&[? ?]&?). congruence.
  - split; [done|]. intros (?&[? ?]&?). congruence.
Qed.

Lemma classify_Skip sp e i :
  classify sp e i = Some Skip →
  ∃ f, flags sp !! Z.to_nat i = Some f ∧ f ≠ EMPTY ∧
       ∀ x, holds sp (Z.to_nat i) x → compare sp x e ≠ 0.
Proof.
  unfold classify, holds, EMPTY, FILLED.
  destruct (flags sp !! Z.to_nat i) as [f|]; simpl; [|done].
  destruct (Z.eqb_spec f 0); [done|].
  destruct (Z.eqb_spec f 1).
  - destruct (data sp !! Z.to_nat i) as [[x|]|]; simpl; try done.
    destruct (Z.eqb_spec (compare sp x e) 0); [done|].
    intros _. exists f. repeat split; try done.
    intros y [_ Hy]. congruence.
  - intros _. exists f. repeat split; try done.
    intros y [Hy _]. congruence.
Qed.

Lemma classify_total sp e i :
  rep sp → 0 <= i < size sp → is_Some (classify sp e i).
Proof.
  intros Hrep Hi. unfold classify.
  destruct (lookup_lt_is_Some_2 (flags sp) (Z.to_nat i)) as [f Hf].
  { rewrite (rep_flags _ Hrep). lia. }
  rewrite Hf. simpl. destruct (f =? EMPTY); [done|].
  destruct (Z.eqb_spec f FILLED); [|done]. subst f.
  destruct (rep_owned _ Hrep _ Hf) as [x ->]. done.
Qed.

Lemma note_deleted_cases sp i fd :
  (note_deleted sp i fd = fd ∧
   (fd = size sp → flags sp !! Z.to_nat i ≠ Some DELETED))
  ∨ (note_deleted sp i fd = i ∧ fd = size sp ∧
     flags sp !! Z.to_nat i = Some DELETED).
Proof.
  unfold note_deleted. case_bool_decide; simpl.
  - destruct (Z.eqb_spec fd (size sp)); [right; done|left; done].
  - left. done.
Qed.

Lemma final_deleted_keep sp w fd :
  fd ≠ size sp → Forall (λ j, j ≠ size sp) w → final_deleted sp w fd = fd.
Proof.
  revert fd. induction w as [|j w IH]; intros fd Hfd Hw; [done|].
  inversion_clear Hw. unfold final_deleted. simpl.
  destruct (note_deleted_cases sp j fd) as [[-> _]|(-> & ? & _)];
    [|done]. by apply IH.
Qed.

(** Started at [size], the final [firstDeleted] is the first tombstone of
    [w], or [size] when [w] has none. *)
Lemma final_deleted_first sp w :
  Forall (λ j, j ≠ size sp) w →
  (final_deleted sp w (size sp) = size sp ∧
   Forall (λ j, flags sp !! Z.to_nat j ≠ Some DELETED) w)
  ∨ (∃ pre post,
       w = pre ++ final_deleted sp w (size sp) :: post ∧
       flags sp !! Z.to_nat (final_deleted sp w (size sp)) = Some DELETED ∧
       Forall (λ j, flags sp !! Z.to_nat j ≠ Some DELETED) pre).
Proof.
  induction w as [|j w IH]; intros Hw.
  { left. split; [done|constructor]. }
  inversion_clear Hw as [|?? Hj Hw'].
  unfold final_deleted. simpl.
  destruct (note_deleted_cases sp j (size sp)) as [[-> Hnd]|(-> & _ & Hd)].
  - destruct (IH Hw') as [[Hfin Hall]|(pre & post & Hsplit & Hdel & Hpre)].
    + left. split; [done|]. constructor; auto.
    + right. exists (j :: pre), post. split; [|split; [done|]].
      * simpl. f_equal. exact Hsplit.
      * constructor; auto.
  - right. exists [], w.
    fold (final_deleted sp w j). rewrite final_deleted_keep by done.
    split; [done|]. split; [done|constructor].
Qed.

Lemma probe_along_total sp e w fd :
  Forall (λ i, is_Some (classify sp e i)) w →
  is_Some (probe_along sp e w fd).
Proof.
  revert fd. induction w as [|i w IH]; intros fd Hw; [done|].
  inversion_clear Hw as [|?? [c Hc] Hw']. simpl. rewrite Hc.
  destruct c; try done. by apply IH.
Qed.

(** The probe stops at the first slot that is not skipped. *)
Lemma probe_along_stop sp e pre i post fd c :
  Forall (λ j, classify sp e j = Some Skip) pre →
  classify sp e i = Some c → c ≠ Skip →
  probe_along sp e (pre ++ i :: post) fd =
  Some (i, match c with Match => true | _ => false end).
Proof.
  revert fd. induction pre as [|j pre IH]; intros fd Hpre Hc Hne; simpl.
  - rewrite Hc. by destruct c.
  - inversion_clear Hpre as [|?? Hj Hpre']. rewrite Hj. by apply IH.
Qed.

Lemma probe_along_exhaust sp e w fd :
  Forall (λ j, classify sp e j = Some Skip) w →
  probe_along sp e w fd = Some (final_deleted sp w fd, false).
Proof.
  revert fd. induction w as [|j w IH]; intros fd Hw; [done|].
  inversion_clear Hw as [|?? Hj Hw']. simpl. rewrite Hj. by apply IH.
Qed.

(** Every result of the probe is one of the two above. *)
Lemma probe_along_inv sp e w fd i b :
  probe_along sp e w fd = Some (i, b) →
  (∃ pre post,
     w = pre ++ i :: post ∧
     Forall (λ j, classify sp e j = Some Skip) pre ∧
     classify sp e i = Some (if b then Match else Empty))
  ∨ (b = false ∧ Forall (λ j, classify sp e j = Some Skip) w ∧
     i = final_deleted sp w fd).
Proof.
  revert fd. induction w as [|j w IH]; intros fd; simpl.
  { intros [= <- <-]. right. done. }
  destruct (classify sp e j) as [[]|] eqn:Hj; try done.
  - intros [= <- <-]. left. exists [], w. done.
  - intros [= <- <-]. left. exists [], w. done.
  - intros H. destruct (IH _ H) as [(pre & post & -> & Hpre & Hi)|(-> & Hw & ->)].
    + left. exists (j :: pre), post. split; [done|]. split; [|done].
      by constructor.
    + right. split; [done|]. split; [by constructor|done].
Qed.

End Along.

(** ** Results of [findElementIndex] on a well-formed table *)

Section Index.

Context {Elt : Type}.

Implicit Types (sp : @genericTable Elt) (e x : Elt).

Lemma occupied_count_all (fl : list Z) :
  Forall (λ f, f = FILLED) fl → occupied_count fl = Z.of_nat (length fl).
Proof.
  induction 1 as [|f fl Hf _ IH]; [done|].
  rewrite occupied_count_cons, IH, bool_decide_eq_true_2 by done.
  simpl length. lia.
Qed.

Lemma rep_size32 sp : rep sp → 0 < size sp → 0 < size sp < 2 ^ 32.
Proof. intros [[? ?] _ _ _ _ _] ?. lia. Qed.

Lemma walk_not_size sp e :
  0 < size sp →
  Forall (λ j, j ≠ size sp) (walk (size sp) (home_slot sp e)).
Proof.
  intros Hn. apply Forall_forall. intros j Hj%walk_range; lia.
Qed.

Lemma walk_classified sp e :
  rep sp → 0 < size sp →
  Forall (λ i, is_Some (classify sp e i)) (walk (size sp) (home_slot sp e)).
Proof.
  intros Hrep Hn. apply Forall_forall. intros i Hi%walk_range; [|done].
  by apply classify_total.
Qed.

(** The probe returns. *)
Lemma findElementIndex_total sp e :
  rep sp → 0 < size sp → ∃ i b, findElementIndex sp (Some e) = Some (i, b).
Proof.
  intros Hrep Hn. rewrite findElementIndex_along by by apply rep_size32.
  destruct (probe_along_total sp e _ (size sp) (walk_classified sp e Hrep Hn))
    as [[i b] H].
  eauto.
Qed.

(** The possible results, in terms of the probe sequence [w]: the probe
    stopped at the first slot of [w] that is empty or holds a match; or no
    slot of [w] is such and the result is the first tombstone of [w], or
    [size] when [w] has none. *)
Lemma findElementIndex_inv sp e i b :
  rep sp → 0 < size sp →
  findElementIndex sp (Some e) = Some (i, b) →
  let w := walk (size sp) (home_slot sp e) in
  (∃ pre post,
     w = pre ++ i :: post ∧
     Forall (λ j, classify sp e j = Some Skip) pre ∧
     classify sp e i = Some (if b then Match else Empty))
  ∨ (b = false ∧ Forall (λ j, classify sp e j = Some Skip) w ∧
     ((i = size sp ∧
       Forall (λ j, flags sp !! Z.to_nat j ≠ Some DELETED) w)
      ∨ (∃ pre post,
           w = pre ++ i :: post ∧
           flags sp !! Z.to_nat i = Some DELETED ∧
           Forall (λ j, flags sp !! Z.to_nat j ≠ Some DELETED) pre))).
Proof.
  intros Hrep Hn. rewrite findElementIndex_along by by apply rep_size32.
  intros H. cbv zeta.
  apply probe_along_inv in H as [H|(-> & Hskip & ->)]; [by left|].
  right. split; [done|]. split; [done|].
  destruct (final_deleted_first sp _ (walk_not_size sp e Hn)) as [[-> ?]|?];
    [left|right]; done.
Qed.

(** The result is an index of the array, or [size]. *)
Lemma findElementIndex_bound sp e i b :
  rep sp → 0 < size sp →
  findElementIndex sp (Some e) = Some (i, b) → 0 <= i <= size sp.
Proof.
  intros Hrep Hn H.
  destruct (findElementIndex_inv sp e i b Hrep Hn H)
    as [(pre & post & Hw & _)|(_ & _ & [[-> _]|(pre & post & Hw & _)])];
    try lia;
    (assert (i ∈ walk (size sp) (home_slot sp e)) as Hi%walk_range
       by (rewrite Hw; set_solver); lia).
Qed.

(** A result with [found = true] is the index of a filled slot that holds
    an element comparing equal to the one searched. *)
Lemma findElementIndex_found sp e i :
  rep sp → 0 < size sp →
  findElementIndex sp (Some e) = Some (i, true) →
  0 <= i < size sp ∧ ∃ x, holds sp (Z.to_nat i) x ∧ compare sp x e = 0.
Proof.
  intros Hrep Hn H.
  destruct (findElementIndex_inv sp e i true Hrep Hn H)
    as [(pre & post & Hw & _ & Hc)|(? & _)]; [|done].
  split; [|by apply classify_Match].
  eapply walk_range; [done|]. rewrite Hw. set_solver.
Qed.

(** A result with [found = false] below [size] is the index of an empty
    slot or of a tombstone. *)
Lemma findElementIndex_free sp e i :
  rep sp → 0 < size sp →
  findElementIndex sp (Some e) = Some (i, false) → i < size sp →
  flags sp !! Z.to_nat i = Some EMPTY ∨ flags sp !! Z.to_nat i = Some DELETED.
Proof.
  intros Hrep Hn H Hi.
  destruct (findElementIndex_inv sp e i false Hrep Hn H)
    as [(pre & post & Hw & _ & Hc)|(_ & _ & [[-> _]|(pre & post & _ & Hd & _)])].
  - left. by apply classify_Empty in Hc.
  - lia.
  - by right.
Qed.

(** The result [size] means that every slot is filled. *)
Lemma findElementIndex_full sp e :
  rep sp → 0 < size sp →
  findElementIndex sp (Some e) = Some (size sp, false) →
  count sp = size sp.
Proof.
  intros Hrep Hn H.
  destruct (findElementIndex_inv sp e _ false Hrep Hn H)
    as [(pre & post & Hw & _)|(_ & Hskip & [[_ Hnd]|(pre & post & Hw & _)])].
  - assert (size sp ∈ walk (size sp) (home_slot sp e)) as Hi%walk_range
      by (rewrite Hw; set_solver); lia.
  - rewrite (rep_count _ Hrep).
    rewrite occupied_count_all; [rewrite (rep_flags _ Hrep); lia|].
    apply Forall_lookup. intros j f Hf.
    pose proof (lookup_lt_Some _ _ _ Hf) as Hj.
    rewrite (rep_flags _ Hrep) in Hj.
    assert (Z.of_nat j ∈ walk (size sp) (home_slot sp e)) as Hin.
    { apply walk_elem; [apply home_slot_range|]; lia. }
    rewrite Forall_forall in Hskip, Hnd.
    destruct (classify_Skip _ _ _ (Hskip _ Hin)) as (f' & Hf' & Hne & _).
    specialize (Hnd _ Hin). rewrite Nat2Z.id in Hf', Hnd.
    assert (f' = f) as -> by congruence.
    pose proof (rep_range _ Hrep) as Hr. rewrite Forall_lookup in Hr.
    destruct (Hr _ _ Hf) as [?|[?|?]]; [done|done|congruence].
  - assert (size sp ∈ walk (size sp) (home_slot sp e)) as Hi%walk_range
      by (rewrite Hw; set_solver); lia.
Qed.

(** With room in the table the result is an index of the array. *)
Lemma findElementIndex_room sp e i b :
  rep sp → count sp < size sp →
  findElementIndex sp (Some e) = Some (i, b) → 0 <= i < size sp.
Proof.
  intros Hrep Hroom H.
  assert (0 < size sp) as Hn.
  { pose proof (occupied_count_bounds (flags sp)).
    rewrite (rep_count _ Hrep) in Hroom. lia. }
  pose proof (findElementIndex_bound sp e i b Hrep Hn H).
  destruct (decide (i = size sp)) as [->|]; [|lia].
  destruct b.
  - apply findElementIndex_found in H; [lia|done|done].
  - apply findElementIndex_full in H; [lia|done|done].
Qed.

(** An element that no filled slot holds is not found. *)
Lemma findElementIndex_absent sp e i b :
  rep sp → 0 < size sp → ¬ member sp e →
  findElementIndex sp (Some e) = Some (i, b) → b = false.
Proof.
  intros Hrep Hn Hnm H. destruct b; [|done].
  apply findElementIndex_found in H as (_ & x & Hx & Hc); [|done|done].
  destruct Hnm. by exists (Z.to_nat i), x.
Qed.

End Index.

(** ** The representation invariant is kept by every operation *)

Section Invariant.

Context {Elt : Type} (strdup : Elt → Elt).

Implicit Types (sp : @genericTable Elt) (e x : Elt).

Lemma createSet_rep maxElts cmp h sp :
  createSet maxElts cmp h = Some sp → rep sp.
Proof.
  unfold createSet. case_bool_decide as Hm; [|done]. intros [= <-].
  split; simpl.
  - done.
  - by rewrite length_replicate.
  - by rewrite length_replicate.
  - apply Forall_replicate. by left.
  - by rewrite occupied_count_replicate_empty.
  - intros i [[=] _]%lookup_replicate.
Qed.

Lemma findElementIndex_Some_size sp e r :
  rep sp → findElementIndex sp (Some e) = Some r → 0 < size sp.
Proof.
  intros Hrep. unfold findElementIndex. simpl.
  destruct (Z.eqb_spec (size sp) 0); [done|].
  pose proof (rep_size _ Hrep). lia.
Qed.

Lemma wrap_small (z : Z) : 0 <= z < 2 ^ 32 → wrap z = z.
Proof. intros. unfold wrap. by apply Z.mod_small. Qed.

Lemma rep_count_range sp : rep sp → 0 <= count sp <= size sp.
Proof.
  intros Hrep. pose proof (occupied_count_bounds (flags sp)) as Hb.
  rewrite (rep_flags _ Hrep) in Hb. rewrite (rep_count _ Hrep).
  pose proof (rep_size _ Hrep). lia.
Qed.

Lemma findElementIndex_None sp : findElementIndex sp None = None.
Proof. done. Qed.

(** What [addElement] does when there is room: nothing if the element is
    found, and otherwise the three writes at the index returned by the
    probe. *)
Lemma addElement_unfold sp e :
  rep sp → count sp < size sp →
  ∃ i b,
    findElementIndex sp (Some e) = Some (i, b) ∧ 0 <= i < size sp ∧
    addElement strdup sp (Some e) =
    Some (if b then sp else filled_at sp i (strdup e)).
Proof.
  intros Hrep Hroom.
  assert (0 < size sp) as Hn.
  { pose proof (occupied_count_bounds (flags sp)).
    rewrite (rep_count _ Hrep) in Hroom. lia. }
  destruct (findElementIndex_total sp e Hrep Hn) as (i & b & Hf).
  pose proof (findElementIndex_room sp e i b Hrep Hroom Hf) as Hi.
  exists i, b. split; [done|]. split; [done|].
  unfold addElement. simpl.
  rewrite (proj2 (Z.ltb_lt _ _)) by done. rewrite Hf. simpl.
  destruct b; [done|].
  rewrite !aset_in_bounds
    by (rewrite ?(rep_data _ Hrep), ?(rep_flags _ Hrep); lia).
  simpl. unfold filled_at. rewrite wrap_small; [done|].
  pose proof (rep_count_range sp Hrep). pose proof (rep_size _ Hrep). lia.
Qed.

Lemma rep_filled_at sp i p :
  rep sp → 0 <= i < size sp →
  flags sp !! Z.to_nat i = Some EMPTY ∨ flags sp !! Z.to_nat i = Some DELETED →
  rep (filled_at sp i p).
Proof.
  intros Hrep Hi Hfree. split; simpl.
  - apply (rep_size _ Hrep).
  - rewrite length_insert. apply (rep_flags _ Hrep).
  - rewrite length_insert. apply (rep_data _ Hrep).
  - apply Forall_insert; [apply (rep_range _ Hrep)|]. right. by left.
  - rewrite (rep_count _ Hrep).
    destruct Hfree as [Hf|Hf];
      rewrite (occupied_count_insert _ _ _ _ Hf);
      rewrite bool_decide_eq_false_2, bool_decide_eq_true_2 by done; lia.
  - intros j Hj. destruct (decide (j = Z.to_nat i)) as [->|Hne].
    + exists p. apply list_lookup_insert_eq.
      rewrite (rep_data _ Hrep). lia.
    + rewrite list_lookup_insert_ne in Hj by done.
      rewrite list_lookup_insert_ne by done.
      by apply (rep_owned _ Hrep).
Qed.

Lemma addElement_rep sp elt sp' :
  rep sp → addElement strdup sp elt = Some sp' → rep sp'.
Proof.
  intros Hrep. destruct elt as [e|]; [|done].
  destruct (Z.ltb_spec (count sp) (size sp)) as [Hroom|Hfull].
  - destruct (addElement_unfold sp e Hrep Hroom) as (i & b & Hf & Hi & ->).
    intros [= <-]. destruct b; [done|].
    apply rep_filled_at; try done.
    apply (findElementIndex_free sp e); try done; lia.
  - unfold addElement. simpl.
    by rewrite (proj2 (Z.ltb_ge _ _)) by done.
Qed.

(** What [removeElement] does for an element that is found. *)
Lemma removeElement_found sp e i :
  rep sp → findElementIndex sp (Some e) = Some (i, true) →
  removeElement sp (Some e) = Some (deleted_at sp i) ∧ 0 < count sp.
Proof.
  intros Hrep Hf.
  pose proof (findElementIndex_Some_size sp e _ Hrep Hf) as Hn.
  destruct (findElementIndex_found sp e i Hrep Hn Hf)
    as (Hi & x & [Hfl Hd] & Hc).
  assert (0 < count sp) as Hpos.
  { rewrite (rep_count _ Hrep).
    pose proof (occupied_count_insert _ _ _ DELETED Hfl) as Hins.
    rewrite bool_decide_eq_true_2, bool_decide_eq_false_2 in Hins by done.
    pose proof (occupied_count_bounds (<[Z.to_nat i := DELETED]> (flags sp))).
    lia. }
  split; [|done].
  unfold removeElement. rewrite Hf. simpl.
  rewrite aset_in_bounds by (rewrite (rep_flags _ Hrep); lia).
  simpl. unfold deleted_at. rewrite wrap_small; [done|].
  pose proof (rep_count_range sp Hrep). pose proof (rep_size _ Hrep). lia.
Qed.

Lemma removeElement_not_found sp e i :
  findElementIndex sp (Some e) = Some (i, false) →
  removeElement sp (Some e) = Some sp.
Proof. intros Hf. unfold removeElement. by rewrite Hf. Qed.

Lemma removeElement_rep sp elt sp' :
  rep sp → removeElement sp elt = Some sp' → rep sp'.
Proof.
  intros Hrep. destruct elt as [e|]; [|by intros [= <-]].
  destruct (findElementIndex sp (Some e)) as [[i b]|] eqn:Hf;
    [|unfold removeElement; by rewrite Hf].
  destruct b.
  - destruct (removeElement_found sp e i Hrep Hf) as [-> Hpos].
    intros [= <-].
    pose proof (findElementIndex_Some_size sp e _ Hrep Hf) as Hn.
    destruct (findElementIndex_found sp e i Hrep Hn Hf)
      as (Hi & x & [Hfl Hd] & Hc).
    split; simpl.
    + apply (rep_size _ Hrep).
    + rewrite length_insert. apply (rep_flags _ Hrep).
    + apply (rep_data _ Hrep).
    + apply Forall_insert; [apply (rep_range _ Hrep)|]. right. by right.
    + rewrite (rep_count _ Hrep), (occupied_count_insert _ _ _ _ Hfl).
      rewrite bool_decide_eq_true_2, bool_decide_eq_false_2 by done. lia.
    + intros j Hj. destruct (decide (j = Z.to_nat i)) as [->|Hne].
      * rewrite list_lookup_insert_eq in Hj; [done|].
        rewrite (rep_flags _ Hrep). lia.
      * rewrite list_lookup_insert_ne in Hj by done.
        by apply (rep_owned _ Hrep).
  - rewrite (removeElement_not_found sp e i Hf). by intros [= <-].
Qed.

Lemma reachable_rep sp : reachable strdup sp → rep sp.
Proof.
  induction 1 as [n cmp h sp Hc|sp elt sp' _ IH Ha|sp elt sp' _ IH Hr].
  - by eapply createSet_rep.
  - by eapply addElement_rep.
  - by eapply removeElement_rep.
Qed.

Lemma numElements_rep sp :
  rep sp → numElements sp = Some (occupied_count (flags sp), sp).
Proof.
  intros Hrep. unfold numElements, to_int.
  pose proof (rep_size _ Hrep).
  pose proof (occupied_count_bounds (flags sp)) as Hb.
  rewrite (rep_flags _ Hrep) in Hb. rewrite <- (rep_count _ Hrep) in *.
  rewrite (proj2 (Z.ltb_lt _ _)) by lia. done.
Qed.

End Invariant.

(** ** Stored elements are found *)

Section Members.

Context {Elt : Type} (strdup : Elt → Elt).

Implicit Types (sp : @genericTable Elt) (e x : Elt).

Lemma probe_along_match sp e (w : list Z) fd (k : nat) j :
  w !! k = Some j → classify sp e j = Some Match →
  (∀ (k' : nat) i, (k' < k)%nat → w !! k' = Some i →
     classify sp e i = Some Match ∨ classify sp e i = Some Skip) →
  ∃ i, probe_along sp e w fd = Some (i, true).
Proof.
  revert k fd. induction w as [|a w IH]; intros k fd Hk Hj Hbefore; [done|].
  destruct k as [|k]; simpl in *.
  - simplify_eq. rewrite Hj. eauto.
  - destruct (Hbefore 0%nat a ltac:(lia) eq_refl) as [->| ->]; [eauto|].
    apply (IH k); [done|done|].
    intros k' i Hk' Hi. apply (Hbefore (S k') i); [lia|done].
Qed.

Lemma home_slot_equal sp x y :
  hash sp x = hash sp y → home_slot sp x = home_slot sp y.
Proof. unfold home_slot. by intros ->. Qed.

(** On a table whose probe chains are unbroken, an element that some
    filled slot holds is found. *)
Lemma findElementIndex_member sp e :
  rep sp → 0 < size sp → chained sp →
  (∀ x y, compare sp x y = 0 → hash sp x = hash sp y) →
  member sp e → ∃ i, findElementIndex sp (Some e) = Some (i, true).
Proof.
  intros Hrep Hn Hch Hhash (j & x & Hx & Hc).
  rewrite findElementIndex_along by by apply rep_size32.
  pose proof (home_slot_range sp e Hn) as Hh.
  assert (j < Z.to_nat (size sp))%nat as Hj.
  { rewrite <- (rep_flags _ Hrep). destruct Hx as [Hx _].
    by eapply lookup_lt_Some. }
  destruct (slot_surj (size sp) (home_slot sp e) (Z.of_nat j) Hh ltac:(lia))
    as (k & Hk & Hslot).
  apply (probe_along_match sp e _ _ k (Z.of_nat j)).
  - by rewrite walk_lookup, Hslot.
  - apply classify_Match. exists x. by rewrite Nat2Z.id.
  - intros k' i Hk' Hi. rewrite walk_lookup in Hi by lia. simplify_eq.
    pose proof (slot_range (size sp) (home_slot sp e) k' Hn) as Hr.
    destruct (classify_total sp e _ Hrep Hr) as [[| |] Hcl]; auto.
    exfalso. apply classify_Empty in Hcl.
    rewrite <- (home_slot_equal sp x e (Hhash _ _ Hc)) in Hcl, Hslot.
    apply (Hch k x Hk) in Hcl; [done| |done].
    by rewrite Hslot, Nat2Z.id.
Qed.

(** The slots read before the one that the probe returns are all
    skipped. *)
Lemma findElementIndex_prefix sp e i b :
  rep sp → 0 < size sp →
  findElementIndex sp (Some e) = Some (i, b) → i < size sp →
  ∃ k : nat,
    (k < Z.to_nat (size sp))%nat ∧
    slot (size sp) (home_slot sp e) k = i ∧
    ∀ k' : nat, (k' < k)%nat →
      classify sp e (slot (size sp) (home_slot sp e) k') = Some Skip.
Proof.
  intros Hrep Hn H Hi.
  assert (∃ pre post,
            walk (size sp) (home_slot sp e) = pre ++ i :: post ∧
            Forall (λ j, classify sp e j = Some Skip) pre)
    as (pre & post & Hw & Hpre).
  { destruct (findElementIndex_inv sp e i b Hrep Hn H)
      as [(pre & post & Hw & Hpre & _)
         |(_ & Hskip & [[-> _]|(pre & post & Hw & _)])].
    - by exists pre, post.
    - lia.
    - exists pre, post. split; [done|].
      rewrite Hw in Hskip. by apply Forall_app in Hskip as [? _]. }
  assert (walk (size sp) (home_slot sp e) !! length pre = Some i) as Hlk.
  { rewrite Hw. by rewrite list_lookup_middle. }
  pose proof (lookup_lt_Some _ _ _ Hlk) as Hlt. rewrite walk_length in Hlt.
  exists (length pre). split; [done|].
  rewrite walk_lookup in Hlk by done. split; [congruence|].
  intros k' Hk'. rewrite Forall_lookup in Hpre.
  apply (Hpre k').
  rewrite <- (lookup_app_l pre (i :: post)) by done.
  rewrite <- Hw. apply walk_lookup. lia.
Qed.

End Members.

(** ** The table after an insertion or a removal *)

Section Writes.

Context {Elt : Type} (strdup : Elt → Elt).

Implicit Types (sp : @genericTable Elt) (e x p : Elt).

Lemma holds_filled_at sp i p (j : nat) y :
  rep sp → 0 <= i < size sp →
  holds (filled_at sp i p) j y ↔
  (j = Z.to_nat i ∧ y = p) ∨ (j ≠ Z.to_nat i ∧ holds sp j y).
Proof.
  intros Hrep Hi. unfold holds, filled_at. simpl.
  destruct (decide (j = Z.to_nat i)) as [->|Hne].
  - rewrite !list_lookup_insert_eq
      by (rewrite ?(rep_data _ Hrep), ?(rep_flags _ Hrep); lia).
    split.
    + intros [_ [= ->]]. by left.
    + intros [[_ ->]|[? _]]; done.
  - rewrite !list_lookup_insert_ne by done.
    split; [by right|]. intros [[? _]|[_ ?]]; done.
Qed.

Lemma holds_deleted_at sp i (j : nat) y :
  holds (deleted_at sp i) j y → holds sp j y.
Proof.
  unfold holds, deleted_at. simpl. intros [Hf Hd]. split; [|done].
  destruct (decide (j = Z.to_nat i)) as [->|Hne].
  - destruct (decide (Z.to_nat i < length (flags sp))%nat).
    + by rewrite list_lookup_insert_eq in Hf.
    + by rewrite list_insert_ge in Hf by lia.
  - by rewrite list_lookup_insert_ne in Hf.
Qed.

Lemma classify_filled_at_other sp i p e j :
  0 <= i → 0 <= j → j ≠ i →
  classify (filled_at sp i p) e j = classify sp e j.
Proof.
  intros Hi Hj Hne. unfold classify, filled_at. simpl.
  rewrite !list_lookup_insert_ne by lia. done.
Qed.

Lemma classify_filled_at_same sp i p e :
  rep sp → 0 <= i < size sp → compare sp p e = 0 →
  classify (filled_at sp i p) e i = Some Match.
Proof.
  intros Hrep Hi Hc. apply classify_Match. exists p. split; [|done].
  apply holds_filled_at; auto.
Qed.

(** After the insertion of [p] at the index that the probe for [e]
    returned, the probe for [e] returns that index with [found = true],
    provided that [p] compares equal to [e]. *)
Lemma findElementIndex_filled_at sp e i p :
  rep sp → 0 < size sp →
  findElementIndex sp (Some e) = Some (i, false) → i < size sp →
  compare sp p e = 0 →
  findElementIndex (filled_at sp i p) (Some e) = Some (i, true).
Proof.
  intros Hrep Hn Hf Hi Hc.
  pose proof (findElementIndex_bound sp e i _ Hrep Hn Hf) as Hb.
  destruct (findElementIndex_prefix sp e i _ Hrep Hn Hf Hi)
    as (k & Hk & Hslot & Hskip).
  rewrite findElementIndex_along by (simpl; by apply rep_size32).
  change (size (filled_at sp i p)) with (size sp).
  change (home_slot (filled_at sp i p) e) with (home_slot sp e).
  pose proof (walk_lookup (size sp) (home_slot sp e) k Hk) as Hlk.
  rewrite Hslot in Hlk.
  rewrite <- (take_drop_middle _ _ _ Hlk).
  apply (probe_along_stop _ _ _ _ _ _ Match); [|by apply classify_filled_at_same; auto; lia|done].
  apply Forall_lookup. intros k' j Hj.
  pose proof (lookup_lt_Some _ _ _ Hj) as Hlt.
  rewrite length_take in Hlt.
  rewrite lookup_take_lt in Hj by lia.
  rewrite walk_lookup in Hj by lia. simplify_eq.
  pose proof (slot_range (size sp) (home_slot sp e) k' Hn).
  rewrite classify_filled_at_other; [apply Hskip; lia|lia|lia|].
  intros Heq. apply slot_inj in Heq; lia.
Qed.

Lemma chained_filled_at sp e i :
  rep sp → 0 < size sp → chained sp →
  (∀ x, hash sp (strdup x) = hash sp x) →
  findElementIndex sp (Some e) = Some (i, false) → i < size sp →
  chained (filled_at sp i (strdup e)).
Proof.
  intros Hrep Hn Hch Hdup Hf Hi.
  pose proof (findElementIndex_bound sp e i _ Hrep Hn Hf) as Hb.
  destruct (findElementIndex_prefix sp e i _ Hrep Hn Hf Hi)
    as (k0 & Hk0 & Hslot & Hskip).
  intros k x Hk Hx k' Hk'. simpl in *.
  change (home_slot (filled_at sp i (strdup e)) x) with (home_slot sp x) in *.
  pose proof (slot_range (size sp) (home_slot sp x) k Hn) as Hrk.
  pose proof (slot_range (size sp) (home_slot sp x) k' Hn) as Hrk'.
  assert (flags sp !! Z.to_nat (slot (size sp) (home_slot sp x) k')
          ≠ Some EMPTY) as Hold.
  { apply holds_filled_at in Hx as [[Heq Hxe]|[Hne Hx]]; [|by eauto|done|lia].
    assert (slot (size sp) (home_slot sp x) k = i) as Hki by lia.
    assert (home_slot sp x = home_slot sp e) as Hhome
      by (rewrite Hxe; apply home_slot_equal, Hdup).
    rewrite Hhome in Hki |- *.
    assert (k = k0) as ->.
    { apply (slot_inj (size sp) (home_slot sp e)); [done..|].
      by rewrite Hki, Hslot. }
    intros Hem. apply (classify_Empty sp e) in Hem.
    rewrite (Hskip k' Hk') in Hem. done. }
  destruct (decide (Z.to_nat (slot (size sp) (home_slot sp x) k')
                    = Z.to_nat i)) as [Heq|Hne].
  - rewrite Heq, list_lookup_insert_eq by (rewrite (rep_flags _ Hrep); lia).
    done.
  - by rewrite list_lookup_insert_ne.
Qed.

Lemma chained_deleted_at sp i : chained sp → chained (deleted_at sp i).
Proof.
  intros Hch k x Hk Hx k' Hk'. simpl in *.
  change (home_slot (deleted_at sp i) x) with (home_slot sp x) in *.
  apply holds_deleted_at in Hx. pose proof (Hch k x Hk Hx k' Hk') as Hold.
  destruct (decide (Z.to_nat (slot (size sp) (home_slot sp x) k')
                    = Z.to_nat i)) as [Heq|Hne].
  - rewrite Heq. intros Hem.
    destruct (decide (Z.to_nat i < length (flags sp))%nat).
    + by rewrite list_lookup_insert_eq in Hem.
    + rewrite list_insert_ge in Hem by lia. by rewrite Heq in Hold.
  - by rewrite list_lookup_insert_ne.
Qed.

Lemma no_duplicates_deleted_at sp i :
  no_duplicates sp → no_duplicates (deleted_at sp i).
Proof.
  intros Hnd j1 j2 x y Hx%holds_deleted_at Hy%holds_deleted_at.
  by apply Hnd.
Qed.

Lemma no_duplicates_filled_at sp e i :
  rep sp → 0 < size sp → chained sp → no_duplicates sp → lawful strdup sp →
  findElementIndex sp (Some e) = Some (i, false) → i < size sp →
  no_duplicates (filled_at sp i (strdup e)).
Proof.
  intros Hrep Hn Hch Hnd Hlaw Hf Hi.
  pose proof (findElementIndex_bound sp e i _ Hrep Hn Hf) as Hb.
  assert (∀ j y, holds sp j y → compare sp y e ≠ 0) as Hnone.
  { intros j y Hy Hc.
    destruct (findElementIndex_member sp e Hrep Hn Hch (law_hash _ _ Hlaw))
      as [i' Hf']; [by exists j, y|congruence]. }
  intros j1 j2 x y Hx Hy Hc. simpl in Hc.
  apply holds_filled_at in Hx as [[-> ->]|[Hne1 Hx]]; [| |done|lia];
    apply holds_filled_at in Hy as [[-> ->]|[Hne2 Hy]]; try done; try lia.
  - destruct (Hnone _ _ Hy). apply (law_trans _ _ Hlaw _ (strdup e)).
    + by apply (law_sym _ _ Hlaw).
    + apply (law_dup _ _ Hlaw).
  - destruct (Hnone _ _ Hx). apply (law_trans _ _ Hlaw _ (strdup e)); [done|].
    apply (law_dup _ _ Hlaw).
  - by apply (Hnd j1 j2 x y).
Qed.

Lemma lawful_dup_hash sp :
  lawful strdup sp → ∀ x, hash sp (strdup x) = hash sp x.
Proof. intros Hlaw x. apply (law_hash _ _ Hlaw), (law_dup _ _ Hlaw). Qed.

Lemma createSet_consistent maxElts cmp h sp :
  createSet maxElts cmp h = Some sp → consistent sp.
Proof.
  intros Hc. split; [by eapply createSet_rep|].
  unfold createSet in Hc. case_bool_decide; [|done]. simplify_eq.
  split.
  - intros k x _ [[[=] _]%lookup_replicate _].
  - intros i j x y [[[=] _]%lookup_replicate _].
Qed.

Lemma addElement_consistent sp elt sp' :
  consistent sp → lawful strdup sp →
  addElement strdup sp elt = Some sp' → consistent sp'.
Proof.
  intros (Hrep & Hch & Hnd) Hlaw Ha.
  split; [by eapply addElement_rep|].
  destruct elt as [e|]; [|done].
  destruct (Z.ltb_spec (count sp) (size sp)) as [Hroom|Hfull].
  - destruct (addElement_unfold strdup sp e Hrep Hroom)
      as (i & b & Hf & Hi & Heq).
    rewrite Heq in Ha. simplify_eq. destruct b; [done|].
    split.
    + apply chained_filled_at; try done; try lia.
      by apply lawful_dup_hash.
    + apply no_duplicates_filled_at; try done; lia.
  - unfold addElement in Ha. simpl in Ha.
    by rewrite (proj2 (Z.ltb_ge _ _)) in Ha by done.
Qed.

Lemma removeElement_consistent sp elt sp' :
  consistent sp → removeElement sp elt = Some sp' → consistent sp'.
Proof.
  intros (Hrep & Hch & Hnd) Hr.
  split; [by eapply removeElement_rep|].
  destruct elt as [e|]; [|simpl in Hr; by simplify_eq].
  destruct (findElementIndex sp (Some e)) as [[i b]|] eqn:Hf;
    [|unfold removeElement in Hr; by rewrite Hf in Hr].
  destruct b.
  - destruct (removeElement_found sp e i Hrep Hf) as [Heq _].
    rewrite Heq in Hr. simplify_eq.
    split; [by apply chained_deleted_at|by apply no_duplicates_deleted_at].
  - rewrite (removeElement_not_found sp e i Hf) in Hr. by simplify_eq.
Qed.

Lemma lawful_callbacks sp sp' :
  compare sp' = compare sp → hash sp' = hash sp →
  lawful strdup sp' → lawful strdup sp.
Proof. intros Hc Hh [? ? ? ?]. split; rewrite <- ?Hc, <- ?Hh; done. Qed.

Lemma addElement_callbacks sp elt sp' :
  addElement strdup sp elt = Some sp' →
  compare sp' = compare sp ∧ hash sp' = hash sp ∧ size sp' = size sp.
Proof.
  destruct elt as [e|]; [|done]. unfold addElement. simpl.
  destruct (count sp <? size sp); [|done].
  destruct (findElementIndex sp (Some e)) as [[i b]|]; [|done]. simpl.
  destruct b; [by intros [= <-]|].
  destruct (aset (data sp) _ _); [|done]. simpl.
  destruct (aset (flags sp) _ _); [|done]. simpl.
  by intros [= <-].
Qed.

Lemma removeElement_callbacks sp elt sp' :
  removeElement sp elt = Some sp' →
  compare sp' = compare sp ∧ hash sp' = hash sp ∧ size sp' = size sp.
Proof.
  destruct elt as [e|]; [|by intros [= <-]]. unfold removeElement.
  destruct (findElementIndex sp (Some e)) as [[i b]|]; [|done]. simpl.
  destruct b; [|by intros [= <-]]. simpl.
  destruct (aset (flags sp) _ _); [|done]. simpl.
  by intros [= <-].
Qed.

(** Every table built by the operations is consistent, when its callbacks
    are lawful. *)
Lemma reachable_consistent sp :
  reachable strdup sp → lawful strdup sp → consistent sp.
Proof.
  induction 1 as [n cmp h sp Hc|sp elt sp' _ IH Ha|sp elt sp' _ IH Hr];
    intros Hlaw.
  - by eapply createSet_consistent.
  - destruct (addElement_callbacks _ _ _ Ha) as (Hc & Hh & _).
    pose proof (lawful_callbacks _ _ Hc Hh Hlaw).
    eapply addElement_consistent; eauto.
  - destruct (removeElement_callbacks _ _ _ Hr) as (Hc & Hh & _).
    pose proof (lawful_callbacks _ _ Hc Hh Hlaw).
    eapply removeElement_consistent; eauto.
Qed.

End Writes.

(** ** The slots read by the probe *)

Section Trace.

Context {Elt : Type}.

Implicit Types (sp : @genericTable Elt) (e x : Elt).

(** Forgetting the list of visited slots gives the probe itself. *)
Lemma probe_while_traced_erase fuel sp e home index fd visited :
  fst <$> probe_while_traced fuel sp e home index fd visited =
  probe_while fuel sp e home index fd.
Proof.
  revert index fd visited.
  induction fuel as [|fuel IH]; intros index fd visited; simpl;
    destruct ((index <? size sp) && negb (index =? home)); try done.
  destruct (probe_body sp e index fd) as [[i b|i fd']|]; simpl; auto.
Qed.

Lemma findElementIndex_traced_erase sp elt :
  fst <$> findElementIndex_traced sp elt = findElementIndex sp elt.
Proof.
  destruct elt as [e|]; [|done].
  unfold findElementIndex_traced, findElementIndex. simpl.
  destruct (size sp =? 0); [done|].
  destruct (_ <? size sp).
  - destruct (probe_body sp e _ _) as [[i b|i fd']|]; simpl; auto.
    apply probe_while_traced_erase.
  - apply probe_while_traced_erase.
Qed.

Lemma slot_step (n home : Z) (k : nat) :
  0 < n → slot n home (S k) = (slot n home k + 1) mod n.
Proof.
  intros Hn. unfold slot. rewrite Zplus_mod_idemp_l. f_equal. lia.
Qed.

(** A slot at which the body goes on is a slot the probe goes past, and
    conversely. *)
Lemma classify_Skip_passed sp e i :
  rep sp → classify sp e i = Some Skip → passed sp e i.
Proof.
  intros Hrep Hc.
  destruct (classify_Skip _ _ _ Hc) as (f & Hf & Hne & Hcmp).
  pose proof (rep_range _ Hrep) as Hall.
  rewrite Forall_lookup in Hall.
  destruct (Hall _ _ Hf) as [->|[->| ->]]; [done| |by left].
  destruct (rep_owned _ Hrep _ Hf) as [x Hx].
  right. exists x. split; [done|]. by apply Hcmp.
Qed.

Lemma passed_classify_Skip sp e i :
  passed sp e i → classify sp e i = Some Skip.
Proof.
  unfold passed, holds, classify.
  intros [Hd|(x & [Hf Hx] & Hc)].
  - rewrite Hd. done.
  - rewrite Hf. simpl. rewrite Hx. simpl.
    by rewrite (proj2 (Z.eqb_neq _ _)).
Qed.

(** The loop goes on after every slot at which the body goes on, until
    [size] slots were read: of the slots read, all but the last were gone
    past, and if the last was gone past too then every slot was read. *)
Lemma probe_while_traced_stops fuel sp e home (k : nat) fd visited r :
  0 < size sp < 2 ^ 32 → 0 <= home < size sp →
  (0 < k <= Z.to_nat (size sp))%nat →
  probe_while_traced fuel sp e home (slot (size sp) home k) fd visited
    = Some r →
  ∃ m : nat,
    (k + m <= Z.to_nat (size sp))%nat ∧
    r.2 = visited ++ (slot (size sp) home <$> seq k m) ∧
    (∀ a : nat, (k <= a)%nat → (S a < k + m)%nat →
       classify sp e (slot (size sp) home a) = Some Skip) ∧
    (classify sp e (slot (size sp) home (k + m - 1)) = Some Skip →
       (k + m)%nat = Z.to_nat (size sp)).
Proof.
  intros Hn Hh. revert k fd visited.
  induction fuel as [|fuel IH]; intros k fd visited Hk; simpl.
  - destruct (decide (k = Z.to_nat (size sp))) as [->|Hne].
    + rewrite slot_full by done. rewrite Z.eqb_refl, andb_false_r.
      intros [= <-]. exists 0%nat. simpl. rewrite app_nil_r.
      split; [lia|]. split; [done|]. split; intros; lia.
    + pose proof (slot_range (size sp) home k ltac:(lia)).
      pose proof (slot_not_home (size sp) home k Hh ltac:(lia)).
      rewrite (proj2 (Z.ltb_lt _ _)) by lia.
      rewrite (proj2 (Z.eqb_neq _ _)) by done. done.
  - destruct (decide (k = Z.to_nat (size sp))) as [->|Hne].
    + rewrite slot_full by done. rewrite Z.eqb_refl, andb_false_r.
      intros [= <-]. exists 0%nat. simpl. rewrite app_nil_r.
      split; [lia|]. split; [done|]. split; intros; lia.
    + pose proof (slot_range (size sp) home k ltac:(lia)).
      pose proof (slot_not_home (size sp) home k Hh ltac:(lia)).
      rewrite (proj2 (Z.ltb_lt _ _)) by lia.
      rewrite (proj2 (Z.eqb_neq _ _)) by done. simpl.
      rewrite probe_body_classify.
      destruct (classify sp e (slot (size sp) home k)) as [[| |]|] eqn:Hc;
        try done.
      * intros [= <-]. exists 1%nat. split; [lia|]. split; [done|].
        split; [intros; lia|].
        replace (k + 1 - 1)%nat with k by lia. congruence.
      * intros [= <-]. exists 1%nat. split; [lia|]. split; [done|].
        split; [intros; lia|].
        replace (k + 1 - 1)%nat with k by lia. congruence.
      * rewrite slot_succ by done. intros Hr.
        destruct (IH (S k) _ _ ltac:(lia) Hr) as (m & Hm & -> & Hpre & Hlast).
        exists (S m). split; [lia|]. split.
        { simpl. by rewrite <- app_assoc. }
        split.
        { intros a Ha1 Ha2. destruct (decide (a = k)) as [->|Hak]; [done|].
          apply Hpre; lia. }
        replace (k + S m - 1)%nat with (S k + m - 1)%nat by lia.
        intros Hs. specialize (Hlast Hs). lia.
Qed.

(** The same for the whole probe, the first slot included. *)
Lemma findElementIndex_traced_stops sp e r :
  0 < size sp < 2 ^ 32 →
  findElementIndex_traced sp (Some e) = Some r →
  ∃ m : nat,
    (0 < m <= Z.to_nat (size sp))%nat ∧
    r.2 = slot (size sp) (home_slot sp e) <$> seq 0 m ∧
    (∀ a : nat, (S a < m)%nat →
       classify sp e (slot (size sp) (home_slot sp e) a) = Some Skip) ∧
    (classify sp e (slot (size sp) (home_slot sp e) (m - 1)) = Some Skip →
       m = Z.to_nat (size sp)).
Proof.
  intros Hn. pose proof (home_slot_range sp e ltac:(lia)) as Hh.
  unfold findElementIndex_traced. simpl. fold (home_slot sp e).
  rewrite (proj2 (Z.eqb_neq _ _)) by lia.
  rewrite (proj2 (Z.ltb_lt _ _)) by lia.
  rewrite probe_body_classify.
  destruct (classify sp e (home_slot sp e)) as [[| |]|] eqn:Hc; try done.
  - intros [= <-]. exists 1%nat. simpl. rewrite slot_0 by done.
    split; [lia|]. split; [done|]. split; [intros; lia|congruence].
  - intros [= <-]. exists 1%nat. simpl. rewrite slot_0 by done.
    split; [lia|]. split; [done|]. split; [intros; lia|congruence].
  - rewrite <- (slot_0 (size sp) (home_slot sp e)) at 2 by done.
    rewrite slot_succ by done. intros Hr.
    apply probe_while_traced_stops in Hr
      as (m & Hm & -> & Hpre & Hlast); [|done|done|lia].
    exists (S m). split; [lia|]. split.
    { simpl. by rewrite slot_0. }
    split.
    + intros a Ha. destruct a as [|a].
      * by rewrite slot_0.
      * apply Hpre; lia.
    + replace (S m - 1)%nat with (1 + m - 1)%nat by lia.
      intros Hs. specialize (Hlast Hs). lia.
Qed.

End Trace.

(** ** Enumeration *)

Section Enumerate.

Context {Elt : Type}.

Implicit Types (sp : @genericTable Elt) (e x : Elt).

Lemma filled_cells_length (fl : list Z) (d : list (option Elt)) :
  length fl = length d →
  Z.of_nat (length (filled_cells fl d)) = occupied_count fl.
Proof.
  revert d. induction fl as [|f fl IH]; intros [|p d] Hlen; try done.
  simpl in *. rewrite occupied_count_cons. unfold FILLED.
  destruct (Z.eqb_spec f 1) as [->|Hne].
  - rewrite bool_decide_eq_true_2 by done. simpl length.
    rewrite <- (IH d) by lia. lia.
  - rewrite bool_decide_eq_false_2 by done. rewrite <- (IH d) by lia. lia.
Qed.

(** A cell is enumerated exactly when it is the cell of a filled slot. *)
Lemma filled_cells_elem (fl : list Z) (d : list (option Elt)) p :
  p ∈ filled_cells fl d ↔
  ∃ i : nat, fl !! i = Some FILLED ∧ d !! i = Some p.
Proof.
  revert d. induction fl as [|f fl IH]; intros [|q d]; simpl.
  - split; [by intros ?%elem_of_nil|by intros (? & ? & ?)].
  - split; [by intros ?%elem_of_nil|by intros (? & ? & ?)].
  - split; [by intros ?%elem_of_nil|by intros ([|?] & ? & ?)].
  - destruct (Z.eqb_spec f FILLED) as [->|Hne].
    + rewrite elem_of_cons, IH. split.
      * intros [->|(i & ? & ?)]; [by exists 0%nat|by exists (S i)].
      * intros ([|i] & Hf & Hd); simpl in *; [left; congruence|right; eauto].
    + rewrite IH. split.
      * intros (i & ? & ?). by exists (S i).
      * intros ([|i] & Hf & Hd); simpl in *; [congruence|eauto].
Qed.

Lemma getElements_for_spec sp fuel (k : nat) (done rest : list (option Elt)) :
  0 <= size sp < 2 ^ 31 →
  length (flags sp) = Z.to_nat (size sp) →
  length (data sp) = Z.to_nat (size sp) →
  (k <= Z.to_nat (size sp))%nat →
  (Z.to_nat (size sp) - k <= fuel)%nat →
  (length (filled_cells (drop k (flags sp)) (drop k (data sp)))
     <= length rest)%nat →
  Z.of_nat (length done + length rest) < 2 ^ 32 →
  getElements_for fuel sp (Z.of_nat k) (Z.of_nat (length done))
    (done ++ rest) =
  Some (done ++ filled_cells (drop k (flags sp)) (drop k (data sp))
          ++ drop (length (filled_cells (drop k (flags sp))
                             (drop k (data sp)))) rest).
Proof.
  intros Hn Hfl Hd. revert k done rest.
  induction fuel as [|fuel IH]; intros k done rest Hk Hfuel Hroom Hlen.
  - assert (k = Z.to_nat (size sp)) as -> by lia.
    simpl. rewrite (proj2 (Z.ltb_ge _ _)) by lia.
    rewrite !drop_ge by lia. done.
  - destruct (decide (k = Z.to_nat (size sp))) as [->|Hne].
    { simpl. rewrite (proj2 (Z.ltb_ge _ _)) by lia.
      rewrite !drop_ge by lia. done. }
    simpl. rewrite (proj2 (Z.ltb_lt _ _)) by lia. rewrite Nat2Z.id.
    destruct (lookup_lt_is_Some_2 (flags sp) k ltac:(lia)) as [f Hf].
    destruct (lookup_lt_is_Some_2 (data sp) k ltac:(lia)) as [p Hp].
    rewrite (drop_S _ _ _ Hf), (drop_S _ _ _ Hp) in Hroom |- *.
    rewrite Hf. simpl in *.
    assert (wrap (Z.of_nat k + 1) = Z.of_nat (S k)) as ->.
    { rewrite wrap_small; lia. }
    destruct (Z.eqb_spec f FILLED) as [->|Hnf].
    + rewrite Hp. simpl in *. destruct rest as [|r0 rest]; simpl in *; [lia|].
      rewrite aset_in_bounds by (rewrite length_app; simpl; lia).
      simpl. rewrite Nat2Z.id.
      rewrite insert_app_r_alt, Nat.sub_diag by lia. simpl.
      assert (wrap (Z.of_nat (length done) + 1)
              = Z.of_nat (length (done ++ [p]))) as ->.
      { rewrite length_app. simpl. rewrite wrap_small; lia. }
      rewrite (cons_middle p done rest), app_assoc.
      rewrite IH; [|lia|lia|lia|rewrite length_app; simpl; lia].
      by rewrite <- app_assoc.
    + apply IH; [lia|lia|done|done].
Qed.

(** On a well-formed table [getElements] returns the cells of the filled
    slots, in the order of the array, and leaves the table as it is. *)
Lemma getElements_rep sp :
  rep sp → getElements sp = Some (filled_cells (flags sp) (data sp), sp).
Proof.
  intros Hrep. unfold getElements.
  pose proof (rep_size _ Hrep) as Hn.
  pose proof (rep_count_range sp Hrep) as Hc.
  pose proof (filled_cells_length (flags sp) (data sp)) as Hlen.
  rewrite (rep_flags _ Hrep), (rep_data _ Hrep), <- (rep_count _ Hrep)
    in Hlen. specialize (Hlen eq_refl).
  assert (getElements_for (Z.to_nat (size sp)) sp 0 0
            (replicate (Z.to_nat (count sp)) None)
          = Some (filled_cells (flags sp) (data sp))) as ->; [|done].
  pose proof (getElements_for_spec sp (Z.to_nat (size sp)) 0 []
                (replicate (Z.to_nat (count sp)) None) Hn
                (rep_flags _ Hrep) (rep_data _ Hrep)) as Hspec.
  etrans; [apply Hspec|].
  - lia.
  - lia.
  - rewrite !drop_0, length_replicate. lia.
  - simpl. rewrite length_replicate. lia.
  - rewrite !drop_0. simpl.
    rewrite drop_ge by (rewrite length_replicate; lia).
    by rewrite app_nil_r.
Qed.

End Enumerate.

(** ** Repeated insertion *)

Section Repeated.

Context {Elt : Type} (strdup : Elt → Elt).

Implicit Types (sp : @genericTable Elt) (e x : Elt).


Lemma member_callbacks sp sp' e :
  data sp' = data sp → flags sp' = flags sp → compare sp' = compare sp →
  member sp e → member sp' e.
Proof.
  intros Hd Hf Hc (i & y & [H1 H2] & Hy). exists i, y.
  unfold holds. by rewrite Hd, Hf, Hc.
Qed.






End Repeated.

(** ** Tombstones on the way of the probe *)

Section Tombstones.

Context {Elt : Type}.

Implicit Types (sp : @genericTable Elt) (e x : Elt).

Lemma passed_Skip sp e j : passed sp e j → classify sp e j = Some Skip.
Proof.
  unfold passed, classify, holds, EMPTY, FILLED, DELETED.
  intros [->|(x & [-> ->] & Hne)]; simpl; [done|].
  by rewrite (proj2 (Z.eqb_neq _ _)) by done.
Qed.

Lemma final_deleted_split sp (pre : list Z) t post :
  t ≠ size sp → Forall (λ j, j ≠ size sp) post →
  Forall (λ j, flags sp !! Z.to_nat j ≠ Some DELETED) pre →
  flags sp !! Z.to_nat t = Some DELETED →
  final_deleted sp (pre ++ t :: post) (size sp) = t.
Proof.
  intros Ht Hpost Hpre Hdel. induction Hpre as [|j pre Hj _ IH]; simpl.
  - unfold final_deleted. simpl. unfold note_deleted at 2.
    rewrite bool_decide_eq_true_2, Z.eqb_refl by done. simpl.
    by apply final_deleted_keep.
  - unfold final_deleted in *. simpl. unfold note_deleted at 2.
    by rewrite bool_decide_eq_false_2 by done.
Qed.

End Tombstones.

(** ** Other elements are not disturbed *)

Section Frames.

Context {Elt : Type} (strdup : Elt → Elt).

Implicit Types (sp : @genericTable Elt) (e x y : Elt).

(** A probe that finds its element at slot [j] finds it there in any table
    in which the slots it went past are still gone past and slot [j]
    still holds a match. *)
Lemma probe_along_found_mono sp sp' e (w : list Z) fd fd' j :
  probe_along sp e w fd = Some (j, true) →
  (∀ i, i ∈ w → classify sp e i = Some Skip → classify sp' e i = Some Skip) →
  classify sp' e j = Some Match →
  probe_along sp' e w fd' = Some (j, true).
Proof.
  intros H Hskip Hj.
  apply probe_along_inv in H as [(pre & post & -> & Hpre & _)|(? & _)];
    [|done].
  apply (probe_along_stop sp' e pre j post fd' Match); [|done|done].
  apply Forall_forall. intros i Hi. apply Hskip.
  - apply elem_of_app. by left.
  - rewrite Forall_forall in Hpre. by apply Hpre.
Qed.

Lemma findElementIndex_found_mono sp sp' e j :
  0 < size sp < 2 ^ 32 → size sp' = size sp → hash sp' = hash sp →
  findElementIndex sp (Some e) = Some (j, true) →
  (∀ i, 0 <= i < size sp →
        classify sp e i = Some Skip → classify sp' e i = Some Skip) →
  classify sp' e j = Some Match →
  findElementIndex sp' (Some e) = Some (j, true).
Proof.
  intros Hn Hs Hh Hf Hskip Hj.
  rewrite findElementIndex_along in Hf by done.
  rewrite findElementIndex_along by (by rewrite Hs).
  unfold home_slot. rewrite Hs, Hh. fold (home_slot sp e).
  eapply probe_along_found_mono; [exact Hf| |done].
  intros i Hi%walk_range; [|lia]. by apply Hskip.
Qed.

Lemma findElement_found sp e x :
  rep sp →
  findElement sp (Some e) = Some (Some x, sp) →
  ∃ j, findElementIndex sp (Some e) = Some (j, true) ∧
       0 <= j < size sp ∧ holds sp (Z.to_nat j) x ∧ compare sp x e = 0.
Proof.
  intros Hrep. unfold findElement.
  destruct (findElementIndex sp (Some e)) as [[j b]|] eqn:Hf; simpl; [|done].
  destruct b; simpl; [|done].
  pose proof (findElementIndex_Some_size sp e _ Hrep Hf) as Hn.
  destruct (findElementIndex_found sp e j Hrep Hn Hf)
    as (Hj & x' & [Hfl Hd] & Hc).
  rewrite Hd. simpl. intros [= <-]. exists j. done.
Qed.

Lemma findElement_of_index sp e j x :
  findElementIndex sp (Some e) = Some (j, true) →
  data sp !! Z.to_nat j = Some (Some x) →
  findElement sp (Some e) = Some (Some x, sp).
Proof. intros Hf Hd. unfold findElement. rewrite Hf. simpl. by rewrite Hd. Qed.

Lemma classify_deleted_at_other sp i e j :
  0 <= i → 0 <= j → j ≠ i →
  classify (deleted_at sp i) e j = classify sp e j.
Proof.
  intros Hi Hj Hne. unfold classify, deleted_at. simpl.
  rewrite list_lookup_insert_ne by lia. done.
Qed.

Lemma classify_deleted_at_same sp i e :
  0 <= i < size sp → length (flags sp) = Z.to_nat (size sp) →
  classify (deleted_at sp i) e i = Some Skip.
Proof.
  intros Hi Hlen. unfold classify, deleted_at. simpl.
  rewrite list_lookup_insert_eq by lia. done.
Qed.

(** Removing [e] leaves every element that does not compare equal to [e]
    where it was. *)
Lemma findElement_deleted_at sp e i y x :
  rep sp → lawful strdup sp →
  findElementIndex sp (Some e) = Some (i, true) →
  compare sp e y ≠ 0 →
  findElement sp (Some y) = Some (Some x, sp) →
  findElement (deleted_at sp i) (Some y) = Some (Some x, deleted_at sp i).
Proof.
  intros Hrep Hlaw Hfe Hne Hfy.
  pose proof (findElementIndex_Some_size sp e _ Hrep Hfe) as Hn.
  destruct (findElementIndex_found sp e i Hrep Hn Hfe)
    as (Hi & xe & Hxe & Hce).
  destruct (findElement_found sp y x Hrep Hfy) as (j & Hfj & Hj & Hx & Hcy).
  assert (j ≠ i) as Hji.
  { intros ->. destruct Hx as [_ Hx], Hxe as [_ Hxe].
    assert (xe = x) as -> by congruence.
    apply Hne. apply (law_trans _ _ Hlaw e x y); [|done].
    by apply (law_sym _ _ Hlaw). }
  apply (findElement_of_index _ _ j); [|by destruct Hx].
  apply (findElementIndex_found_mono sp); try done.
  - by apply rep_size32.
  - intros k Hk Hsk. destruct (decide (k = i)) as [->|Hki].
    + apply classify_deleted_at_same; [done|apply (rep_flags _ Hrep)].
    + by rewrite classify_deleted_at_other by lia.
  - rewrite classify_deleted_at_other by lia.
    apply classify_Match. by exists x.
Qed.

(** Inserting a new element leaves every stored element where it was. *)
Lemma findElement_filled_at sp e i y x :
  consistent sp → lawful strdup sp →
  findElementIndex sp (Some e) = Some (i, false) → i < size sp →
  findElement sp (Some y) = Some (Some x, sp) →
  findElement (filled_at sp i (strdup e)) (Some y)
  = Some (Some x, filled_at sp i (strdup e)).
Proof.
  intros (Hrep & Hch & Hnd) Hlaw Hfe Hi Hfy.
  pose proof (findElementIndex_Some_size sp e _ Hrep Hfe) as Hn.
  pose proof (findElementIndex_bound sp e i _ Hrep Hn Hfe) as Hb.
  destruct (findElement_found sp y x Hrep Hfy) as (j & Hfj & Hj & Hx & Hcy).
  assert (flags sp !! Z.to_nat i ≠ Some FILLED) as Hnf.
  { destruct (findElementIndex_free sp e i Hrep Hn Hfe Hi) as [-> | ->];
      done. }
  assert (j ≠ i) as Hji.
  { intros ->. by destruct Hx as [Hx _]. }
  assert (compare sp (strdup e) y ≠ 0) as Hney.
  { intros Hc.
    destruct (findElementIndex_member sp e Hrep Hn Hch (law_hash _ _ Hlaw))
      as [i' Hf']; [|congruence].
    exists (Z.to_nat j), x. split; [done|].
    apply (law_trans _ _ Hlaw x y e); [done|].
    apply (law_trans _ _ Hlaw y (strdup e) e);
      [by apply (law_sym _ _ Hlaw)|apply (law_dup _ _ Hlaw)]. }
  assert (data (filled_at sp i (strdup e)) !! Z.to_nat j = Some (Some x))
    as Hdj.
  { simpl. rewrite list_lookup_insert_ne by lia. by destruct Hx. }
  apply (findElement_of_index _ _ j); [|done].
  apply (findElementIndex_found_mono sp); try done.
  - by apply rep_size32.
  - intros k Hk Hsk. destruct (decide (k = i)) as [->|Hki].
    + unfold classify, filled_at. simpl.
      rewrite !list_lookup_insert_eq
        by (rewrite ?(rep_flags _ Hrep), ?(rep_data _ Hrep); lia).
      simpl. by rewrite (proj2 (Z.eqb_neq _ _)) by done.
    + by rewrite classify_filled_at_other by lia.
  - rewrite classify_filled_at_other by lia.
    apply classify_Match. by exists x.
Qed.

(** After the removal of [e] no filled slot holds an element that compares
    equal to [e]. *)
Lemma member_deleted_at sp e i :
  rep sp → no_duplicates sp → lawful strdup sp →
  findElementIndex sp (Some e) = Some (i, true) →
  ¬ member (deleted_at sp i) e.
Proof.
  intros Hrep Hnd Hlaw Hfe (j & x & Hx & Hc).
  pose proof (findElementIndex_Some_size sp e _ Hrep Hfe) as Hn.
  destruct (findElementIndex_found sp e i Hrep Hn Hfe)
    as (Hi & xe & Hxe & Hce).
  assert (j ≠ Z.to_nat i) as Hji.
  { intros ->. destruct Hx as [Hx _]. simpl in Hx.
    rewrite list_lookup_insert_eq in Hx; [done|].
    rewrite (rep_flags _ Hrep). lia. }
  apply holds_deleted_at in Hx. apply Hji.
  apply (Hnd j (Z.to_nat i) x xe Hx Hxe).
  apply (law_trans _ _ Hlaw x e xe); [done|]. by apply (law_sym _ _ Hlaw).
Qed.

Lemma findElement_absent sp e :
  rep sp → 0 < size sp → ¬ member sp e →
  findElement sp (Some e) = Some (None, sp).
Proof.
  intros Hrep Hpos Hnm.
  destruct (findElementIndex_total sp e Hrep Hpos) as (i & b & Hf).
  pose proof (findElementIndex_absent sp e i b Hrep Hpos Hnm Hf) as ->.
  unfold findElement. by rewrite Hf.
Qed.

Lemma lawful_refl sp x : lawful strdup sp → compare sp x x = 0.
Proof.
  intros Hlaw. apply (law_trans _ _ Hlaw x (strdup x) x).
  - apply (law_sym _ _ Hlaw), (law_dup _ _ Hlaw).
  - apply (law_dup _ _ Hlaw).
Qed.

End Frames.

(** ** Pointers of the slots that are not empty *)

Section Owned.

Context {Elt : Type} (strdup : Elt → Elt).

Implicit Types (sp : @genericTable Elt) (e x y : Elt).

Lemma reachable_nonempty_owned sp :
  reachable strdup sp → nonempty_owned sp.
Proof.
  induction 1 as [n cmp h sp Hc|sp elt sp' Hreach IH Ha|sp elt sp' Hreach IH Hr].
  - unfold createSet in Hc. case_bool_decide; [|done]. simplify_eq.
    intros i f [-> _]%lookup_replicate. done.
  - pose proof (reachable_rep strdup sp Hreach) as Hrep.
    destruct elt as [e|]; [|done].
    destruct (Z.ltb_spec (count sp) (size sp)) as [Hroom|Hfull].
    + destruct (addElement_unfold strdup sp e Hrep Hroom)
        as (i & b & Hf & Hi & Heq).
      rewrite Heq in Ha. simplify_eq. destruct b; [done|].
      intros k f Hk Hne. simpl in *.
      destruct (decide (k = Z.to_nat i)) as [->|Hki].
      * exists (strdup e). apply list_lookup_insert_eq.
        rewrite (rep_data _ Hrep). lia.
      * rewrite list_lookup_insert_ne in Hk by done.
        rewrite list_lookup_insert_ne by done. by eapply IH.
    + unfold addElement in Ha. simpl in Ha.
      by rewrite (proj2 (Z.ltb_ge _ _)) in Ha by done.
  - pose proof (reachable_rep strdup sp Hreach) as Hrep.
    destruct elt as [e|]; [|simpl in Hr; by simplify_eq].
    destruct (findElementIndex sp (Some e)) as [[i b]|] eqn:Hf;
      [|unfold removeElement in Hr; by rewrite Hf in Hr].
    destruct b.
    + destruct (removeElement_found sp e i Hrep Hf) as [Heq _].
      rewrite Heq in Hr. simplify_eq.
      pose proof (findElementIndex_Some_size sp e _ Hrep Hf) as Hn.
      destruct (findElementIndex_found sp e i Hrep Hn Hf)
        as (Hi & x & [Hfl Hd] & Hc).
      intros k f Hk Hne. simpl in *.
      destruct (decide (k = Z.to_nat i)) as [->|Hki]; [by exists x|].
      rewrite list_lookup_insert_ne in Hk by done. by eapply IH.
    + rewrite (removeElement_not_found sp e i Hf) in Hr. by simplify_eq.
Qed.

End Owned.

(** ** Insertion and removal followed by a search *)

Section RoundTrips.

Context {Elt : Type} (strdup : Elt → Elt).

Implicit Types (sp : @genericTable Elt) (e x y : Elt).

Lemma addElement_findElement sp e :
  rep sp → count sp < size sp → compare sp (strdup e) e = 0 →
  ∃ sp' x,
    addElement strdup sp (Some e) = Some sp' ∧
    findElement sp' (Some e) = Some (Some x, sp') ∧
    compare sp' x e = 0.
Proof.
  intros Hrep Hroom Hdup.
  destruct (addElement_unfold strdup sp e Hrep Hroom)
    as (i & b & Hf & Hi & Ha).
  destruct b.
  - destruct (findElementIndex_found sp e i Hrep ltac:(lia) Hf)
      as (_ & x & [Hfl Hd] & Hc).
    exists sp, x. split; [done|]. split; [|done].
    by apply (findElement_of_index _ _ i).
  - exists (filled_at sp i (strdup e)), (strdup e). split; [done|].
    split; [|done].
    apply (findElement_of_index _ _ i).
    + apply findElementIndex_filled_at; try done; lia.
    + simpl. apply list_lookup_insert_eq. rewrite (rep_data _ Hrep). lia.
Qed.

Lemma removeElement_findElement sp e :
  consistent sp → lawful strdup sp → member sp e →
  ∃ sp', removeElement sp (Some e) = Some sp' ∧
         count sp' = count sp - 1 ∧
         consistent sp' ∧
         ¬ member sp' e ∧
         findElement sp' (Some e) = Some (None, sp').
Proof.
  intros Hcons Hlaw Hm. pose proof Hcons as (Hrep & Hch & Hnd).
  assert (0 < size sp) as Hpos.
  { destruct Hm as (i & x & [Hf _] & _).
    apply lookup_lt_Some in Hf. rewrite (rep_flags _ Hrep) in Hf. lia. }
  destruct (findElementIndex_member sp e Hrep Hpos Hch
              (law_hash _ _ Hlaw) Hm) as [i Hf].
  destruct (removeElement_found sp e i Hrep Hf) as [Hr _].
  exists (deleted_at sp i). split; [done|]. split; [done|].
  assert (consistent (deleted_at sp i)) as Hcons'
    by (eapply removeElement_consistent; eauto).
  split; [done|].
  pose proof (member_deleted_at strdup sp e i Hrep Hnd Hlaw Hf) as Hnm.
  split; [done|]. apply findElement_absent; [apply Hcons'|done|done].
Qed.

End RoundTrips.

End GenericTableTheory.

(** * The contract of the set, proved on the generic table *)

Module SetContract.

Import GenericTable GenericTableTheory Scenario.

#[local] Arguments findElementIndex : simpl never.
#[local] Arguments addElement : simpl never.

(** ** The tables of the scenario *)

Lemma scenario_created :
  created = Some {| data := [None; None; None; None];
                    flags := [EMPTY; EMPTY; EMPTY; EMPTY];
                    count := 0; size := 4;
                    compare := int_equal; hash := int_hash |}.
Proof. reflexivity. Qed.

Lemma scenario_after_adds : after_adds = Some table_after_adds.
Proof. vm_compute. reflexivity. Qed.

Lemma scenario_after_remove : after_remove = Some table_after_remove.
Proof. vm_compute. reflexivity. Qed.

Lemma scenario_after_add9 : after_add9 = Some table_after_add9.
Proof. vm_compute. reflexivity. Qed.

Lemma table_after_adds_reachable : reachable int_dup table_after_adds.
Proof.
  apply (reach_add int_dup
           {| data := [None; Some 1; Some 5; None];
              flags := [EMPTY; FILLED; FILLED; EMPTY];
              count := 2; size := 4;
              compare := int_equal; hash := int_hash |} (Some 2));
    [|vm_compute; reflexivity].
  apply (reach_add int_dup
           {| data := [None; Some 1; None; None];
              flags := [EMPTY; FILLED; EMPTY; EMPTY];
              count := 1; size := 4;
              compare := int_equal; hash := int_hash |} (Some 5));
    [|vm_compute; reflexivity].
  apply (reach_add int_dup
           {| data := [None; None; None; None];
              flags := [EMPTY; EMPTY; EMPTY; EMPTY];
              count := 0; size := 4;
              compare := int_equal; hash := int_hash |} (Some 1));
    [|vm_compute; reflexivity].
  apply (reach_create int_dup 4 int_equal int_hash). exact scenario_created.
Qed.

Lemma table_after_remove_reachable : reachable int_dup table_after_remove.
Proof.
  apply (reach_remove int_dup table_after_adds (Some 5));
    [apply table_after_adds_reachable|].
  vm_compute. reflexivity.
Qed.

Lemma table_after_add9_reachable : reachable int_dup table_after_add9.
Proof.
  apply (reach_add int_dup table_after_remove (Some 9));
    [apply table_after_remove_reachable|].
  vm_compute. reflexivity.
Qed.

Lemma int_callbacks_lawful (sp : genericTable) :
  compare sp = int_equal → hash sp = int_hash → lawful int_dup sp.
Proof.
  intros Hc Hh. split; rewrite ?Hc, ?Hh; unfold int_equal, int_dup.
  - intros x y. repeat case_bool_decide; congruence.
  - intros x y z. repeat case_bool_decide; congruence.
  - intros x y. case_bool_decide; congruence.
  - intros x. by rewrite bool_decide_eq_true_2.
Qed.

Section Generic.

Context {Elt : Type} (strdup : Elt → Elt).

Implicit Types (sp : @genericTable Elt) (e x : Elt).

(** C9.  On a well-formed table with at least one slot, the probe for a
    non-null element returns (the fuel given to the loop is enough), its
    result is an index of the slot array or [size], and when it reports
    [found = true] the index is below [size], the slot there is filled and
    the element stored there compares equal to the one searched. *)
Theorem probe_result_sound sp e (Hrep : rep sp) (Hpos : 0 < size sp) :
  ∃ i found,
    findElementIndex sp (Some e) = Some (i, found) ∧
    0 <= i <= size sp ∧
    (found = true →
       i < size sp ∧
       ∃ x, flags sp !! Z.to_nat i = Some FILLED ∧
            data sp !! Z.to_nat i = Some (Some x) ∧
            compare sp x e = 0).
Proof.
  destruct (findElementIndex_total sp e Hrep Hpos) as (i & b & Hf).
  exists i, b. split; [done|]. split.
  - by eapply findElementIndex_bound.
  - intros ->.
    destruct (findElementIndex_found sp e i Hrep Hpos Hf)
      as (Hi & x & [Hfl Hd] & Hc).
    split; [lia|]. by exists x.
Qed.

(** C3.  On a well-formed table with at least one slot, the probe for a
    non-null element reads first the slot [hash(elt) % size], then after
    each slot [j] the slot [(j + 1) % size], at most [size] slots in all
    and no slot twice; the probe with the list of visited slots returns
    the same result as the probe.  It goes on as long as it can: every
    slot read before the last is a tombstone or holds an element that
    does not compare equal, and if the last slot read is such a slot too
    then all the [size] slots were read, so the probe went round past the
    end of the array. *)
Theorem probe_visits_in_order sp e (Hrep : rep sp) (Hpos : 0 < size sp) :
  ∃ i found visited,
    findElementIndex_traced sp (Some e) = Some (i, found, visited) ∧
    findElementIndex sp (Some e) = Some (i, found) ∧
    visited !! 0%nat = Some (wrap (hash sp e) mod size sp) ∧
    (∀ (k : nat) j j',
       visited !! k = Some j → visited !! S k = Some j' →
       j' = (j + 1) mod size sp) ∧
    (length visited <= Z.to_nat (size sp))%nat ∧
    NoDup visited ∧
    (∀ (k : nat) j,
       visited !! k = Some j → (S k < length visited)%nat →
       passed sp e j) ∧
    (∀ j, last visited = Some j → passed sp e j →
       length visited = Z.to_nat (size sp)).
Proof.
  pose proof (rep_size32 sp Hrep Hpos) as H32.
  pose proof (home_slot_range sp e Hpos) as Hh.
  destruct (findElementIndex_total sp e Hrep Hpos) as (i & b & Hf).
  pose proof (findElementIndex_traced_erase sp (Some e)) as Her.
  rewrite Hf in Her.
  destruct (findElementIndex_traced sp (Some e)) as [[[i' b'] visited]|]
    eqn:Htr; [|done].
  simpl in Her. simplify_eq.
  destruct (findElementIndex_traced_stops sp e _ H32 Htr)
    as (m & Hm & Hvis & Hpre & Hlast).
  simpl in Hvis. subst visited.
  exists i, b, (slot (size sp) (home_slot sp e) <$> seq 0 m).
  split; [done|]. split; [done|].
  split; [|split; [|split; [|split; [|split]]]].
  - rewrite list_lookup_fmap, lookup_seq_lt by lia. simpl.
    by rewrite slot_0.
  - intros k j j'. rewrite !list_lookup_fmap.
    intros Hj Hj'.
    destruct (seq 0 m !! k) as [a|] eqn:Ha; [|done].
    destruct (seq 0 m !! S k) as [a'|] eqn:Ha'; [|done].
    apply lookup_seq in Ha as [-> _]. apply lookup_seq in Ha' as [-> _].
    simpl in *. simplify_eq. by apply slot_step.
  - rewrite length_fmap, length_seq. lia.
  - apply NoDup_alt. intros k1 k2 j. rewrite !list_lookup_fmap.
    intros H1 H2.
    destruct (seq 0 m !! k1) as [a1|] eqn:Ha1; [|done].
    destruct (seq 0 m !! k2) as [a2|] eqn:Ha2; [|done].
    apply lookup_seq in Ha1 as [-> ?]. apply lookup_seq in Ha2 as [-> ?].
    simpl in *. simplify_eq.
    apply (slot_inj (size sp) (home_slot sp e)); [done|lia|lia|congruence].
  - intros k j. rewrite list_lookup_fmap, length_fmap, length_seq.
    intros Hj Hk.
    rewrite lookup_seq_lt in Hj by lia. simpl in Hj. simplify_eq.
    apply classify_Skip_passed; [done|]. apply Hpre. lia.
  - intros j. rewrite last_lookup, length_fmap, length_seq.
    rewrite list_lookup_fmap.
    replace (Nat.pred m) with (m - 1)%nat by lia.
    rewrite lookup_seq_lt by lia. simpl. intros [= <-] Hp.
    apply Hlast. by apply passed_classify_Skip.
Qed.

(** C4.  In every table obtained from [createSet] by calls of
    [addElement] and [removeElement], [count], which is what [numElements]
    returns, is the number of slots whose flag is [FILLED]; and when
    there is room, adding an element that the probe does not find fills
    the slot at the index that the probe returned and adds exactly one to
    [count]. *)
Theorem count_is_filled_slots sp (Hreach : reachable strdup sp) :
  count sp = occupied_count (flags sp) ∧
  numElements sp = Some (occupied_count (flags sp), sp) ∧
  ∀ e i,
    count sp < size sp →
    findElementIndex sp (Some e) = Some (i, false) →
    ∃ sp',
      addElement strdup sp (Some e) = Some sp' ∧
      flags sp' !! Z.to_nat i = Some FILLED ∧
      data sp' !! Z.to_nat i = Some (Some (strdup e)) ∧
      count sp' = count sp + 1 ∧
      numElements sp' = Some (occupied_count (flags sp) + 1, sp').
Proof.
  pose proof (reachable_rep strdup sp Hreach) as Hrep.
  split; [apply (rep_count _ Hrep)|]. split; [by apply numElements_rep|].
  intros e i Hroom Hf.
  destruct (addElement_unfold strdup sp e Hrep Hroom)
    as (i' & b & Hf' & Hi & Ha).
  rewrite Hf in Hf'. simplify_eq.
  exists (filled_at sp i' (strdup e)). split; [done|].
  assert (rep (filled_at sp i' (strdup e))) as Hrep'.
  { eapply (addElement_rep strdup); eauto. }
  split; [|split; [|split; [done|]]].
  - simpl. apply list_lookup_insert_eq. rewrite (rep_flags _ Hrep). lia.
  - simpl. apply list_lookup_insert_eq. rewrite (rep_data _ Hrep). lia.
  - rewrite (numElements_rep _ Hrep'). do 2 f_equal.
    rewrite <- (rep_count _ Hrep'), <- (rep_count _ Hrep). done.
Qed.


(** C8.  For a null element on any table, and for a non-null element
    that no filled slot holds on a well-formed table with at least one
    slot: [removeElement] returns with the table as it was ([count],
    every flag and every stored element are the same), and [findElement]
    returns null. *)
Theorem absent_element_is_noop sp (elt : option Elt)
    (Habsent : match elt with
               | None => True
               | Some e => rep sp ∧ 0 < size sp ∧ ¬ member sp e
               end) :
  removeElement sp elt = Some sp ∧ findElement sp elt = Some (None, sp).
Proof.
  destruct elt as [e|]; [|done].
  destruct Habsent as (Hrep & Hpos & Hnm).
  destruct (findElementIndex_total sp e Hrep Hpos) as (i & b & Hf).
  pose proof (findElementIndex_absent sp e i b Hrep Hpos Hnm Hf) as ->.
  split; [by eapply removeElement_not_found|].
  unfold findElement. by rewrite Hf.
Qed.

(** C10.  [numElements], [findElement] and [getElements] do not write to
    the table: whenever one of them returns, the table it leaves is the
    table it was given ([count], flags and stored elements included), for
    a null element argument too; and on a well-formed table they do
    return ([findElement] with a non-null element needs one slot at
    least). *)
Theorem readers_leave_table sp (elt : option Elt) :
  (∃ n, numElements sp = Some (n, sp)) ∧
  (∀ r sp', findElement sp elt = Some (r, sp') → sp' = sp) ∧
  (∀ r sp', getElements sp = Some (r, sp') → sp' = sp) ∧
  (rep sp →
     (∃ r, getElements sp = Some (r, sp)) ∧
     (elt = None ∨ 0 < size sp → ∃ r, findElement sp elt = Some (r, sp))).
Proof.
  split; [by eexists|]. split; [|split].
  - intros r sp'. destruct elt as [e|]; simpl; [|by intros [= _ <-]].
    destruct (findElementIndex sp (Some e)) as [[i b]|]; simpl; [|done].
    destruct b; simpl; [|by intros [= _ <-]].
    destruct (data sp !! Z.to_nat i); simpl; [|done]. by intros [= _ <-].
  - intros r sp'. unfold getElements.
    destruct (getElements_for _ _ _ _ _); simpl; [|done]. by intros [= _ <-].
  - intros Hrep. split; [rewrite (getElements_rep sp Hrep); by eexists|].
    intros Helt. destruct elt as [e|]; [|by eexists].
    destruct Helt as [?|Hpos]; [done|].
    destruct (findElementIndex_total sp e Hrep Hpos) as (i & b & Hf).
    unfold findElement. rewrite Hf. simpl. destruct b; simpl; [|by eexists].
    destruct (findElementIndex_found sp e i Hrep Hpos Hf)
      as (_ & x & [_ Hd] & _).
    rewrite Hd. by eexists.
Qed.


(** C2, as amended.  Let the probe sequence of [e] be [pre ++ i :: post],
    where the probe goes past every slot of [pre] (tombstones and filled
    slots holding other elements).  If slot [i] is empty, the probe
    returns [i], the index of the empty slot, with [found = false],
    whether or not [pre] has tombstones.  The index of the first
    tombstone is what the probe returns when no slot of the whole
    sequence is empty or holds a match: if [i] is a tombstone, [pre] has
    none and the probe also goes past every slot of [post], the probe
    returns [i] with [found = false]. *)
Theorem probe_stops_at_empty_slot sp e (pre : list Z) (i : Z) (post : list Z)
    (Hsize : 0 < size sp < 2 ^ 32)
    (Hwalk : walk (size sp) (home_slot sp e) = pre ++ i :: post)
    (Hpre : Forall (passed sp e) pre) :
  (flags sp !! Z.to_nat i = Some EMPTY →
     findElementIndex sp (Some e) = Some (i, false)) ∧
  (flags sp !! Z.to_nat i = Some DELETED →
     Forall (λ j, flags sp !! Z.to_nat j ≠ Some DELETED) pre →
     Forall (passed sp e) post →
     findElementIndex sp (Some e) = Some (i, false)).
Proof.
  rewrite findElementIndex_along by done.
  assert (Forall (λ j, classify sp e j = Some Skip) pre) as Hskip.
  { eapply Forall_impl; [exact Hpre|]. intros j. apply passed_Skip. }
  assert (Forall (λ j, j ≠ size sp) (pre ++ i :: post)) as Hrange.
  { rewrite <- Hwalk. apply walk_not_size. lia. }
  split.
  - intros Hempty. rewrite Hwalk.
    apply (probe_along_stop sp e pre i post (size sp) Empty); [done| |done].
    by apply classify_Empty.
  - intros Hdel Hnone Hpost. rewrite Hwalk.
    rewrite probe_along_exhaust.
    + apply Forall_app in Hrange as [_ Hrange].
      inversion_clear Hrange as [|?? Hi Hpost'].
      by rewrite final_deleted_split.
    + apply Forall_app. split; [done|]. constructor.
      * apply passed_Skip. by left.
      * eapply Forall_impl; [exact Hpost|]. intros j. apply passed_Skip.
Qed.

End Generic.

Lemma probe_result_sound_witness :
  ∃ i found,
    findElementIndex table_after_remove (Some 2) = Some (i, found) ∧
    0 <= i <= size table_after_remove ∧
    (found = true →
       i < size table_after_remove ∧
       ∃ x, flags table_after_remove !! Z.to_nat i = Some FILLED ∧
            data table_after_remove !! Z.to_nat i = Some (Some x) ∧
            compare table_after_remove x 2 = 0).
Proof.
  apply (probe_result_sound table_after_remove 2).
  - apply (reachable_rep int_dup), table_after_remove_reachable.
  - simpl. lia.
Defined.

Lemma probe_visits_in_order_witness :
  ∃ i found visited,
    findElementIndex_traced table_after_remove (Some 9)
      = Some (i, found, visited) ∧
    findElementIndex table_after_remove (Some 9) = Some (i, found) ∧
    visited !! 0%nat
      = Some (wrap (hash table_after_remove 9) mod size table_after_remove) ∧
    (∀ (k : nat) j j',
       visited !! k = Some j → visited !! S k = Some j' →
       j' = (j + 1) mod size table_after_remove) ∧
    (length visited <= Z.to_nat (size table_after_remove))%nat ∧
    NoDup visited ∧
    (∀ (k : nat) j,
       visited !! k = Some j → (S k < length visited)%nat →
       passed table_after_remove 9 j) ∧
    (∀ j, last visited = Some j → passed table_after_remove 9 j →
       length visited = Z.to_nat (size table_after_remove)).
Proof.
  apply (probe_visits_in_order table_after_remove 9).
  - apply (reachable_rep int_dup), table_after_remove_reachable.
  - simpl. lia.
Defined.

Lemma count_is_filled_slots_witness :
  count table_after_remove = occupied_count (flags table_after_remove) ∧
  numElements table_after_remove
    = Some (occupied_count (flags table_after_remove), table_after_remove) ∧
  ∀ e i,
    count table_after_remove < size table_after_remove →
    findElementIndex table_after_remove (Some e) = Some (i, false) →
    ∃ sp',
      addElement int_dup table_after_remove (Some e) = Some sp' ∧
      flags sp' !! Z.to_nat i = Some FILLED ∧
      data sp' !! Z.to_nat i = Some (Some (int_dup e)) ∧
      count sp' = count table_after_remove + 1 ∧
      numElements sp'
        = Some (occupied_count (flags table_after_remove) + 1, sp').
Proof.
  apply (count_is_filled_slots int_dup table_after_remove).
  apply table_after_remove_reachable.
Defined.

Lemma table_after_remove_rep : rep table_after_remove.
Proof. apply (reachable_rep int_dup), table_after_remove_reachable. Qed.

Lemma table_after_remove_lacks (e : Z) :
  e ≠ 1 → e ≠ 2 → ¬ member table_after_remove e.
Proof.
  intros H1 H2 (i & x & [Hf Hd] & Hc).
  destruct i as [|[|[|[|i]]]]; simpl in *; simplify_eq;
    unfold int_equal in Hc; case_bool_decide; simplify_eq.
Qed.


Lemma absent_element_is_noop_witness :
  removeElement table_after_remove (Some 5) = Some table_after_remove ∧
  findElement table_after_remove (Some 5) = Some (None, table_after_remove).
Proof.
  apply (absent_element_is_noop table_after_remove (Some 5)).
  split; [apply table_after_remove_rep|]. split; [simpl; lia|].
  apply table_after_remove_lacks; lia.
Defined.

Lemma readers_leave_table_witness :
  (∃ n, numElements table_after_remove = Some (n, table_after_remove)) ∧
  (∀ r sp', findElement table_after_remove (Some 2) = Some (r, sp') →
            sp' = table_after_remove) ∧
  (∀ r sp', getElements table_after_remove = Some (r, sp') →
            sp' = table_after_remove) ∧
  (rep table_after_remove →
     (∃ r, getElements table_after_remove = Some (r, table_after_remove)) ∧
     (Some 2 = None ∨ 0 < size table_after_remove →
      ∃ r, findElement table_after_remove (Some 2)
           = Some (r, table_after_remove))).
Proof. apply (readers_leave_table table_after_remove (Some 2)). Defined.


(** C1, as amended.  In the scenario, [add(1); add(5); add(2)] puts 1 in
    slot 1, 5 in slot 2 and 2 in slot 3, and the size is 3; after
    [remove(5)] the size is 2, 5 is not found and 2 is found; [add(9)]
    probes slots 1, 2, 3 and stores 9 in the empty slot 0, the size is 3
    and 9 is found, while slot 2 is still a tombstone. *)
Theorem scenario_outcome :
  after_adds = Some table_after_adds ∧
  holds table_after_adds 1 1 ∧
  holds table_after_adds 2 5 ∧
  holds table_after_adds 3 2 ∧
  numElements table_after_adds = Some (3, table_after_adds) ∧
  after_remove = Some table_after_remove ∧
  numElements table_after_remove = Some (2, table_after_remove) ∧
  findElement table_after_remove (Some 5) = Some (None, table_after_remove) ∧
  findElement table_after_remove (Some 2)
    = Some (Some 2, table_after_remove) ∧
  findElementIndex_traced table_after_remove (Some 9)
    = Some (0, false, [1; 2; 3; 0]) ∧
  after_add9 = Some table_after_add9 ∧
  holds table_after_add9 0 9 ∧
  flags table_after_add9 !! 2%nat = Some DELETED ∧
  numElements table_after_add9 = Some (3, table_after_add9) ∧
  findElement table_after_add9 (Some 9) = Some (Some 9, table_after_add9).
Proof.
  split; [exact scenario_after_adds|].
  do 4 (split; [done|]).
  split; [exact scenario_after_remove|].
  do 3 (split; [vm_compute; reflexivity|]).
  split; [vm_compute; reflexivity|].
  split; [exact scenario_after_add9|].
  do 3 (split; [done|]).
  vm_compute. reflexivity.
Qed.

(** C1, as stated, fails: [add(9)] does not reuse the tombstone left by
    5.  The probe for 9 returns the empty slot 0, 9 is stored there, and
    slot 2 keeps its tombstone and the pointer to 5. *)
Lemma scenario_tombstone_not_reused :
  findElementIndex table_after_remove (Some 9) = Some (0, false) ∧
  after_add9 = Some table_after_add9 ∧
  data table_after_add9 !! 0%nat = Some (Some 9) ∧
  flags table_after_add9 !! 2%nat = Some DELETED ∧
  data table_after_add9 !! 2%nat = Some (Some 5).
Proof.
  split; [vm_compute; reflexivity|].
  split; [exact scenario_after_add9|done].
Qed.

(** C2, as stated, fails.  In the table of the scenario after
    [remove(5)], the element 9 is not stored, its probe sequence is
    1, 2, 3, 0, slot 2 is a tombstone and slot 0 is empty; the probe
    returns 0, the index of the empty slot, and not 2. *)
Lemma probe_returns_empty_slot_after_tombstone :
  walk (size table_after_remove) (home_slot table_after_remove 9)
    = [1; 2; 3; 0] ∧
  flags table_after_remove !! 2%nat = Some DELETED ∧
  flags table_after_remove !! 0%nat = Some EMPTY ∧
  findElement table_after_remove (Some 9) = Some (None, table_after_remove) ∧
  findElementIndex table_after_remove (Some 9) = Some (0, false) ∧
  findElementIndex table_after_remove (Some 9) ≠ Some (2, false).
Proof.
  split; [vm_compute; reflexivity|]. do 2 (split; [done|]).
  do 2 (split; [vm_compute; reflexivity|]).
  vm_compute. discriminate.
Qed.

Lemma probe_stops_at_empty_slot_witness :
  (flags table_after_remove !! Z.to_nat 0 = Some EMPTY →
     findElementIndex table_after_remove (Some 9) = Some (0, false)) ∧
  (flags table_after_remove !! Z.to_nat 0 = Some DELETED →
     Forall (λ j, flags table_after_remove !! Z.to_nat j ≠ Some DELETED)
       [1; 2; 3] →
     Forall (passed table_after_remove 9) [] →
     findElementIndex table_after_remove (Some 9) = Some (0, false)).
Proof.
  apply (probe_stops_at_empty_slot table_after_remove 9 [1; 2; 3] 0 []).
  - simpl. lia.
  - vm_compute. reflexivity.
  - apply Forall_cons_2; [|apply Forall_cons_2; [|apply Forall_cons_2]].
    + right. exists 1. split; [done|]. vm_compute. discriminate.
    + by left.
    + right. exists 2. split; [done|]. vm_compute. discriminate.
    + apply Forall_nil_2.
Defined.

(** ** What [getElements] returns *)

Import Pointers.

Lemma one_cell_rep : rep one_cell.
Proof.
  split.
  - simpl. lia.
  - done.
  - done.
  - apply Forall_cons_2; [right; by left|apply Forall_nil_2].
  - vm_compute. reflexivity.
  - intros [|i]; simpl; [eauto|done].
Qed.

(** C5, as amended.  The cells of the generic table hold addresses.  On a
    well-formed table [getElements] returns, leaving the table as it is,
    a new array of exactly [count] cells: the addresses stored in the
    filled slots, in the order of the slot array.  These are the
    addresses that the table itself holds, not addresses of copies: in
    any heap [m] the returned cells designate the stored elements, and a
    write of [v] through a returned address [a] makes [v] a stored
    element of the table. *)
Theorem getElements_returns_stored_pointers (sp : @genericTable Z)
    (m : gmap Z Z) (Hrep : rep sp) :
  ∃ r,
    getElements sp = Some (r, sp) ∧
    r = filled_cells (flags sp) (data sp) ∧
    Z.of_nat (length r) = count sp ∧
    (∀ p, p ∈ r ↔
          ∃ i : nat, flags sp !! i = Some FILLED ∧ data sp !! i = Some p) ∧
    deref m r = stored m sp ∧
    (∀ a v, Some a ∈ r → Some v ∈ stored (<[a := v]> m) sp).
Proof.
  exists (filled_cells (flags sp) (data sp)).
  split; [by apply getElements_rep|]. split; [done|]. split.
  { rewrite filled_cells_length, (rep_count _ Hrep); [done|].
    by rewrite (rep_flags _ Hrep), (rep_data _ Hrep). }
  split; [intros p; apply filled_cells_elem|]. split; [done|].
  intros a v Ha. unfold stored, deref.
  apply list_elem_of_fmap. exists (Some a). split; [|done].
  simpl. by rewrite lookup_insert_eq.
Qed.

Lemma getElements_returns_stored_pointers_witness :
  ∃ r,
    getElements one_cell = Some (r, one_cell) ∧
    r = filled_cells (flags one_cell) (data one_cell) ∧
    Z.of_nat (length r) = count one_cell ∧
    (∀ p, p ∈ r ↔
          ∃ i : nat, flags one_cell !! i = Some FILLED ∧
                     data one_cell !! i = Some p) ∧
    deref one_heap r = stored one_heap one_cell ∧
    (∀ a v, Some a ∈ r → Some v ∈ stored (<[a := v]> one_heap) one_cell).
Proof.
  apply (getElements_returns_stored_pointers one_cell one_heap).
  apply one_cell_rep.
Defined.

(** C5, as stated, fails on the part about copies.  [getElements] on the
    one-slot table returns the address 100 that the table holds; in the
    heap where address 100 holds 7 the stored element of the table is 7,
    and after the caller writes 8 through the returned address the stored
    element of the table is 8. *)
Lemma getElements_shares_elements :
  getElements one_cell = Some ([Some 100], one_cell) ∧
  data one_cell = [Some 100] ∧
  stored one_heap one_cell = [Some 7] ∧
  stored (<[100 := 8]> one_heap) one_cell = [Some 8].
Proof.
  split; [vm_compute; reflexivity|]. split; [done|].
  split; [vm_compute; reflexivity|]. vm_compute. reflexivity.
Qed.

End SetContract.

(** * Further properties of the generic table *)

Module SetProperties.

Import GenericTable GenericTableTheory Scenario.

#[local] Arguments findElementIndex : simpl never.
#[local] Arguments addElement : simpl never.

Section Generic.

Context {Elt : Type} (strdup : Elt → Elt).

Implicit Types (sp : @genericTable Elt) (e x y : Elt).

(** X1.  [createSet] fails on a negative [maxElts] and otherwise returns a
    table of [maxElts] slots with the two callbacks, in which [count] is
    0, nothing is enumerated, no element is stored and, when there is a
    slot, every search returns null. *)
Theorem createSet_gives_empty_table (maxElts : Z) (cmp : Elt → Elt → Z)
    (h : Elt → Z) (Hint : - 2 ^ 31 <= maxElts < 2 ^ 31) :
  (maxElts < 0 → createSet maxElts cmp h = None) ∧
  (0 <= maxElts →
     ∃ sp, createSet maxElts cmp h = Some sp ∧
           size sp = maxElts ∧ compare sp = cmp ∧ hash sp = h ∧
           consistent sp ∧
           numElements sp = Some (0, sp) ∧
           getElements sp = Some ([], sp) ∧
           (∀ e, ¬ member sp e) ∧
           (∀ e, 0 < maxElts → findElement sp (Some e) = Some (None, sp))).
Proof.
  split.
  - intros Hneg. unfold createSet. by rewrite bool_decide_eq_false_2 by lia.
  - intros Hpos.
    destruct (createSet maxElts cmp h) as [sp|] eqn:Hc;
      [|unfold createSet in Hc;
        by rewrite bool_decide_eq_true_2 in Hc by lia].
    pose proof (createSet_consistent _ _ _ _ Hc) as Hcons.
    pose proof (proj1 Hcons) as Hrep.
    assert (flags sp = replicate (Z.to_nat maxElts) EMPTY
            ∧ size sp = maxElts ∧ compare sp = cmp ∧ hash sp = h
            ∧ count sp = 0) as (Hfl & Hs & Hcmp & Hh & Hcount).
    { unfold createSet in Hc. case_bool_decide; [|done]. by simplify_eq. }
    assert (∀ e, ¬ member sp e) as Hnone.
    { intros e (i & x & [Hf _] & _). rewrite Hfl in Hf.
      by apply lookup_replicate in Hf as [[=] _]. }
    exists sp. do 5 (split; [done|]). split; [|split; [|split; [done|]]].
    + rewrite (numElements_rep sp Hrep), <- (rep_count _ Hrep), Hcount. done.
    + rewrite (getElements_rep sp Hrep). do 2 f_equal.
      apply nil_length_inv.
      pose proof (filled_cells_length (flags sp) (data sp)) as Hlen.
      rewrite (rep_flags _ Hrep), (rep_data _ Hrep), <- (rep_count _ Hrep),
        Hcount in Hlen.
      specialize (Hlen eq_refl). lia.
    + intros e Hm. apply findElement_absent; [done|lia|apply Hnone].
Qed.

(** X2.  On a consistent table with lawful callbacks and at least one slot,
    [findElement] returns a stored element comparing equal to [e] when
    some filled slot holds one, and null otherwise. *)
Theorem find_returns_stored_element sp e (Hcons : consistent sp)
    (Hlaw : lawful strdup sp) (Hpos : 0 < size sp) :
  (member sp e →
     ∃ x i, findElement sp (Some e) = Some (Some x, sp) ∧
            holds sp i x ∧ compare sp x e = 0) ∧
  (¬ member sp e → findElement sp (Some e) = Some (None, sp)).
Proof.
  destruct Hcons as (Hrep & Hch & Hnd). split.
  - intros Hm.
    destruct (findElementIndex_member sp e Hrep Hpos Hch
                (law_hash _ _ Hlaw) Hm) as [i Hf].
    destruct (findElementIndex_found sp e i Hrep Hpos Hf)
      as (Hi & x & Hx & Hc).
    exists x, (Z.to_nat i). split; [|done].
    apply (findElement_of_index _ _ i); [done|by destruct Hx].
  - intros Hnm. by apply findElement_absent.
Qed.

(** X3.  On a consistent table with lawful callbacks, removing an element that
    a filled slot holds returns, takes one from [count], keeps the table
    consistent, and afterwards no filled slot holds an element comparing
    equal to it and [findElement] returns null for it. *)
Theorem remove_then_find_absent sp e (Hcons : consistent sp)
    (Hlaw : lawful strdup sp) (Hm : member sp e) :
  ∃ sp', removeElement sp (Some e) = Some sp' ∧
         count sp' = count sp - 1 ∧
         consistent sp' ∧
         ¬ member sp' e ∧
         findElement sp' (Some e) = Some (None, sp').
Proof. by apply (removeElement_findElement strdup). Qed.

(** X4.  On a consistent table with lawful callbacks, an element [x] that
    [findElement] returns for [y] is still what it returns for [y] after
    any [addElement], and after the [removeElement] of an element that
    does not compare equal to [y]. *)
Theorem updates_keep_other_elements sp e y x (Hcons : consistent sp)
    (Hlaw : lawful strdup sp)
    (Hy : findElement sp (Some y) = Some (Some x, sp)) :
  (∀ sp', addElement strdup sp (Some e) = Some sp' →
          findElement sp' (Some y) = Some (Some x, sp')) ∧
  (∀ sp', compare sp e y ≠ 0 → removeElement sp (Some e) = Some sp' →
          findElement sp' (Some y) = Some (Some x, sp')).
Proof.
  pose proof Hcons as (Hrep & Hch & Hnd). split.
  - intros sp' Ha.
    destruct (Z.ltb_spec (count sp) (size sp)) as [Hroom|Hfull].
    + destruct (addElement_unfold strdup sp e Hrep Hroom)
        as (i & b & Hf & Hi & Heq).
      rewrite Heq in Ha. simplify_eq. destruct b; [done|].
      apply findElement_filled_at; try done. lia.
    + unfold addElement in Ha. simpl in Ha.
      by rewrite (proj2 (Z.ltb_ge _ _)) in Ha by done.
  - intros sp' Hne Hr.
    destruct (findElementIndex sp (Some e)) as [[i b]|] eqn:Hf;
      [|unfold removeElement in Hr; by rewrite Hf in Hr].
    destruct b.
    + destruct (removeElement_found sp e i Hrep Hf) as [Heq _].
      rewrite Heq in Hr. simplify_eq.
      by apply (findElement_deleted_at strdup sp e).
    + rewrite (removeElement_not_found sp e i Hf) in Hr. by simplify_eq.
Qed.

(** X5.  Neither [addElement] nor [removeElement] changes the capacity or the
    callbacks of a table, and neither makes a slot empty again: a slot
    whose flag is not [EMPTY] before the call has a flag that is not
    [EMPTY] after it. *)
Theorem updates_never_empty_a_slot sp (elt : option Elt) sp'
    (Hop : addElement strdup sp elt = Some sp'
           ∨ removeElement sp elt = Some sp') :
  size sp' = size sp ∧ compare sp' = compare sp ∧ hash sp' = hash sp ∧
  length (flags sp') = length (flags sp) ∧
  ∀ (i : nat) f, flags sp !! i = Some f → f ≠ EMPTY →
                 ∃ f', flags sp' !! i = Some f' ∧ f' ≠ EMPTY.
Proof.
  assert (∀ (fl : list Z) (k : nat) v (i : nat) f,
            v ≠ EMPTY → fl !! i = Some f → f ≠ EMPTY →
            ∃ f', <[k := v]> fl !! i = Some f' ∧ f' ≠ EMPTY) as Hins.
  { intros fl k v i f Hv Hf Hne. destruct (decide (i = k)) as [->|Hik].
    - exists v. split; [|done]. apply list_lookup_insert_eq.
      by eapply lookup_lt_Some.
    - exists f. by rewrite list_lookup_insert_ne. }
  destruct Hop as [Ha|Hr].
  - destruct (addElement_callbacks strdup _ _ _ Ha) as (Hc & Hh & Hs).
    do 3 (split; [done|]).
    destruct elt as [e|]; [|done]. unfold addElement in Ha. simpl in Ha.
    destruct (count sp <? size sp); [|done].
    destruct (findElementIndex sp (Some e)) as [[i b]|]; [|done].
    simpl in Ha. destruct b; [simplify_eq; split; eauto|].
    destruct (aset (data sp) _ _) as [d|]; [|done]. simpl in Ha.
    destruct (aset (flags sp) _ _) as [fl|] eqn:Hfl; [|done].
    simpl in Ha. simplify_eq. simpl.
    apply aset_Some in Hfl as [_ ->].
    split; [apply length_insert|]. intros k f. by apply Hins.
  - destruct (removeElement_callbacks _ _ _ Hr) as (Hc & Hh & Hs).
    do 3 (split; [done|]).
    destruct elt as [e|]; [|simpl in Hr; simplify_eq; split; eauto].
    unfold removeElement in Hr.
    destruct (findElementIndex sp (Some e)) as [[i b]|]; [|done].
    simpl in Hr. destruct b; simpl in Hr; [|simplify_eq; split; eauto].
    destruct (aset (flags sp) _ _) as [fl|] eqn:Hfl; [|done].
    simpl in Hr. simplify_eq. simpl.
    apply aset_Some in Hfl as [_ ->].
    split; [apply length_insert|]. intros k f. by apply Hins.
Qed.

(** X6.  On a well-formed table, [addElement] returns exactly when the element
    is not null and [count] is below the capacity. *)
Theorem addElement_returns_iff sp (elt : option Elt) (Hrep : rep sp) :
  is_Some (addElement strdup sp elt) ↔ is_Some elt ∧ count sp < size sp.
Proof.
  split.
  - intros [sp' Ha]. destruct elt as [e|]; [|done]. split; [done|].
    unfold addElement in Ha. simpl in Ha.
    by destruct (Z.ltb_spec (count sp) (size sp)).
  - intros [[e ->] Hroom].
    destruct (addElement_unfold strdup sp e Hrep Hroom)
      as (i & b & _ & _ & ->).
    done.
Qed.

(** X7.  On a consistent table with lawful callbacks, [getElements] returns as
    many cells as [numElements] counts, and each of them is a stored
    element for which [findElement] returns that same element. *)
Theorem enumerated_elements_are_found sp (Hcons : consistent sp)
    (Hlaw : lawful strdup sp) :
  ∃ r, getElements sp = Some (r, sp) ∧
       numElements sp = Some (Z.of_nat (length r), sp) ∧
       ∀ p, p ∈ r →
            ∃ x, p = Some x ∧ findElement sp (Some x) = Some (Some x, sp).
Proof.
  pose proof Hcons as (Hrep & Hch & Hnd).
  exists (filled_cells (flags sp) (data sp)).
  split; [by apply getElements_rep|]. split.
  - rewrite (numElements_rep sp Hrep), filled_cells_length; [done|].
    by rewrite (rep_flags _ Hrep), (rep_data _ Hrep).
  - intros p (i & Hf & Hd)%filled_cells_elem.
    destruct (rep_owned _ Hrep i Hf) as [x Hx].
    assert (p = Some x) as -> by congruence.
    exists x. split; [done|].
    assert (0 < size sp) as Hpos.
    { apply lookup_lt_Some in Hf. rewrite (rep_flags _ Hrep) in Hf. lia. }
    assert (member sp x) as Hm.
    { exists i, x. split; [done|]. by apply (lawful_refl strdup). }
    destruct (findElementIndex_member sp x Hrep Hpos Hch
                (law_hash _ _ Hlaw) Hm) as [j Hfj].
    destruct (findElementIndex_found sp x j Hrep Hpos Hfj)
      as (Hj & x' & Hx' & Hc).
    assert (Z.to_nat j = i) as Hji by (by apply (Hnd _ _ x' x)).
    apply (findElement_of_index _ _ j); [done|]. by rewrite Hji.
Qed.

(** X8.  On a well-formed table, [findElement] and [removeElement] with a
    non-null element return exactly when the table has at least one slot
    (with no slot the home slot is computed modulo 0); with a null
    element they always return. *)
Theorem search_returns_iff sp e (Hrep : rep sp) :
  (is_Some (findElement sp (Some e)) ↔ 0 < size sp) ∧
  (is_Some (removeElement sp (Some e)) ↔ 0 < size sp) ∧
  findElement sp None = Some (None, sp) ∧
  removeElement sp None = Some sp.
Proof.
  split; [|split; [|done]].
  - split.
    + intros [r Hr]. unfold findElement in Hr.
      destruct (findElementIndex sp (Some e)) as [r'|] eqn:Hf; [|done].
      by eapply findElementIndex_Some_size.
    + intros Hpos.
      destruct (findElementIndex_total sp e Hrep Hpos) as (i & b & Hf).
      destruct b.
      * destruct (findElementIndex_found sp e i Hrep Hpos Hf)
          as (_ & x & [_ Hd] & _).
        by rewrite (findElement_of_index sp e i x).
      * unfold findElement. by rewrite Hf.
  - split.
    + intros [r Hr]. unfold removeElement in Hr.
      destruct (findElementIndex sp (Some e)) as [r'|] eqn:Hf; [|done].
      by eapply findElementIndex_Some_size.
    + intros Hpos.
      destruct (findElementIndex_total sp e Hrep Hpos) as (i & b & Hf).
      destruct b.
      * destruct (removeElement_found sp e i Hrep Hf) as [-> _]. done.
      * by rewrite (removeElement_not_found sp e i Hf).
Qed.

(** The table that [createSet(0, ...)] returns: [numElements] returns 0
    and [getElements] an array of no cell, but no call with a non-null
    element has a defined result. *)
Lemma zero_capacity_table (cmp : Elt → Elt → Z) (h : Elt → Z) e :
  ∃ sp, createSet 0 cmp h = Some sp ∧
        numElements sp = Some (0, sp) ∧
        getElements sp = Some ([], sp) ∧
        addElement strdup sp (Some e) = None ∧
        findElement sp (Some e) = None ∧
        removeElement sp (Some e) = None.
Proof. eexists. repeat split. Qed.


End Generic.

Lemma table_after_remove_consistent : consistent table_after_remove.
Proof.
  apply (reachable_consistent int_dup).
  - apply SetContract.table_after_remove_reachable.
  - by apply SetContract.int_callbacks_lawful.
Qed.

Lemma table_after_remove_lawful : lawful int_dup table_after_remove.
Proof. by apply SetContract.int_callbacks_lawful. Qed.

Lemma createSet_gives_empty_table_witness :
  (4 < 0 → createSet 4 int_equal int_hash = None) ∧
  (0 <= 4 →
     ∃ sp, createSet 4 int_equal int_hash = Some sp ∧
           size sp = 4 ∧ compare sp = int_equal ∧ hash sp = int_hash ∧
           consistent sp ∧
           numElements sp = Some (0, sp) ∧
           getElements sp = Some ([], sp) ∧
           (∀ e, ¬ member sp e) ∧
           (∀ e, 0 < 4 → findElement sp (Some e) = Some (None, sp))).
Proof. apply (createSet_gives_empty_table 4 int_equal int_hash). lia. Defined.

Lemma find_returns_stored_element_witness :
  (member table_after_remove 2 →
     ∃ x i, findElement table_after_remove (Some 2)
              = Some (Some x, table_after_remove) ∧
            holds table_after_remove i x ∧
            compare table_after_remove x 2 = 0) ∧
  (¬ member table_after_remove 2 →
     findElement table_after_remove (Some 2)
       = Some (None, table_after_remove)).
Proof.
  apply (find_returns_stored_element int_dup table_after_remove 2).
  - apply table_after_remove_consistent.
  - apply table_after_remove_lawful.
  - simpl. lia.
Defined.

Lemma remove_then_find_absent_witness :
  ∃ sp', removeElement table_after_remove (Some 2) = Some sp' ∧
         count sp' = count table_after_remove - 1 ∧
         consistent sp' ∧
         ¬ member sp' 2 ∧
         findElement sp' (Some 2) = Some (None, sp').
Proof.
  apply (remove_then_find_absent int_dup table_after_remove 2).
  - apply table_after_remove_consistent.
  - apply table_after_remove_lawful.
  - exists 3%nat, 2. done.
Defined.

Lemma updates_keep_other_elements_witness :
  (∀ sp', addElement int_dup table_after_remove (Some 9) = Some sp' →
          findElement sp' (Some 2) = Some (Some 2, sp')) ∧
  (∀ sp', compare table_after_remove 9 2 ≠ 0 →
          removeElement table_after_remove (Some 9) = Some sp' →
          findElement sp' (Some 2) = Some (Some 2, sp')).
Proof.
  apply (updates_keep_other_elements int_dup table_after_remove 9 2 2).
  - apply table_after_remove_consistent.
  - apply table_after_remove_lawful.
  - vm_compute. reflexivity.
Defined.

Lemma updates_never_empty_a_slot_witness :
  size table_after_add9 = size table_after_remove ∧
  compare table_after_add9 = compare table_after_remove ∧
  hash table_after_add9 = hash table_after_remove ∧
  length (flags table_after_add9) = length (flags table_after_remove) ∧
  ∀ (i : nat) f, flags table_after_remove !! i = Some f → f ≠ EMPTY →
                 ∃ f', flags table_after_add9 !! i = Some f' ∧ f' ≠ EMPTY.
Proof.
  apply (updates_never_empty_a_slot int_dup table_after_remove (Some 9)).
  left. vm_compute. reflexivity.
Defined.

Lemma search_returns_iff_witness :
  (is_Some (findElement table_after_remove (Some 9))
   ↔ 0 < size table_after_remove) ∧
  (is_Some (removeElement table_after_remove (Some 9))
   ↔ 0 < size table_after_remove) ∧
  findElement table_after_remove None = Some (None, table_after_remove) ∧
  removeElement table_after_remove None = Some table_after_remove.
Proof.
  apply (search_returns_iff table_after_remove 9).
  apply SetContract.table_after_remove_rep.
Defined.

Lemma addElement_returns_iff_witness :
  is_Some (addElement int_dup table_after_remove (Some 9)) ↔
  is_Some (Some 9) ∧ count table_after_remove < size table_after_remove.
Proof.
  apply (addElement_returns_iff int_dup table_after_remove (Some 9)).
  apply SetContract.table_after_remove_rep.
Defined.

Lemma enumerated_elements_are_found_witness :
  ∃ r, getElements table_after_remove = Some (r, table_after_remove) ∧
       numElements table_after_remove
         = Some (Z.of_nat (length r), table_after_remove) ∧
       ∀ p, p ∈ r →
            ∃ x, p = Some x ∧
                 findElement table_after_remove (Some x)
                   = Some (Some x, table_after_remove).
Proof.
  apply (enumerated_elements_are_found int_dup table_after_remove).
  - apply table_after_remove_consistent.
  - apply table_after_remove_lawful.
Defined.



End SetProperties.

(** * Properties of the string table *)

Module StringTableTheory.

Import StringTable.

#[local] Arguments findElementIndex : simpl never.
#[local] Arguments GenericTable.findElementIndex : simpl never.
#[local] Arguments GenericTable.addElement : simpl never.

(** ** The library functions *)

Lemma uchar_zero (c : ascii) : uchar c = 0 ↔ c = Ascii.zero.
Proof.
  unfold uchar. split.
  - intros H. rewrite <- (ascii_N_embedding c).
    assert (N_of_ascii c = 0%N) as -> by lia. done.
  - by intros ->.
Qed.

Lemma uchar_inj (c1 c2 : ascii) : uchar c1 = uchar c2 → c1 = c2.
Proof.
  unfold uchar. intros H.
  rewrite <- (ascii_N_embedding c1), <- (ascii_N_embedding c2).
  f_equal. lia.
Qed.

(** [strcmp] returns 0 exactly on two strings with the same characters
    before the terminator. *)
Lemma strcmp_zero_iff (s t : string) :
  strcmp s t = 0 ↔ strdup s = strdup t.
Proof.
  revert t. induction s as [|c1 r1 IH]; intros [|c2 r2]; simpl.
  - done.
  - destruct (Ascii.eqb_spec c2 Ascii.zero) as [->|Hne].
    + done.
    + split; [|done]. intros H. destruct Hne. apply uchar_zero. lia.
  - destruct (Ascii.eqb_spec c1 Ascii.zero) as [->|Hne].
    + done.
    + split; [|done]. intros H. destruct Hne. apply uchar_zero. lia.
  - destruct (Ascii.eqb_spec c1 c2) as [->|Hne].
    + destruct (Ascii.eqb_spec c2 Ascii.zero) as [->|Hnz]; [done|].
      rewrite IH. split; [by intros ->|by intros [= ->]].
    + split.
      * intros H. destruct Hne. apply uchar_inj. lia.
      * destruct (Ascii.eqb_spec c1 Ascii.zero) as [->|Hn1],
          (Ascii.eqb_spec c2 Ascii.zero) as [->|Hn2]; try done.
        intros [= -> _]. done.
Qed.

Lemma strdup_idemp (s : string) : strdup (strdup s) = strdup s.
Proof.
  induction s as [|c r IH]; simpl; [done|].
  destruct (Ascii.eqb_spec c Ascii.zero) as [->|Hne]; [done|].
  simpl. rewrite (proj2 (Ascii.eqb_neq _ _)) by done. by rewrite IH.
Qed.

Section WithChars.

Variable char_value : ascii → Z.

Implicit Types (sp : stringTable) (s t : string).

Lemma strhash_while_strdup s h :
  strhash_while char_value (strdup s) h = strhash_while char_value s h.
Proof.
  revert h. induction s as [|c r IH]; intros h; simpl; [done|].
  destruct (Ascii.eqb_spec c Ascii.zero) as [->|Hne]; [done|].
  simpl. rewrite (proj2 (Ascii.eqb_neq _ _)) by done. apply IH.
Qed.

Lemma strhash_strcmp s t :
  strcmp s t = 0 → strhash char_value s = strhash char_value t.
Proof.
  intros H%strcmp_zero_iff. unfold strhash.
  by rewrite <- (strhash_while_strdup s), <- (strhash_while_strdup t), H.
Qed.

(** The callbacks of the string table are lawful. *)
Lemma string_callbacks_lawful sp :
  GenericTable.lawful strdup (to_generic char_value sp).
Proof.
  split; simpl.
  - intros x y. rewrite !strcmp_zero_iff. done.
  - intros x y z. rewrite !strcmp_zero_iff. congruence.
  - apply strhash_strcmp.
  - intros x. rewrite strcmp_zero_iff. apply strdup_idemp.
Qed.

(** ** The string table runs the code of the generic table *)

Lemma probe_while_generic fuel sp s home index fd :
  probe_while fuel sp s home index fd =
  GenericTable.probe_while fuel (to_generic char_value sp) s home index fd.
Proof.
  revert index fd. induction fuel as [|fuel IH]; intros index fd; simpl.
  - done.
  - destruct ((index <? size sp) && negb (index =? home)); [|done].
    change (probe_body sp s index fd)
      with (GenericTable.probe_body (to_generic char_value sp) s index fd).
    destruct (GenericTable.probe_body _ _ _ _) as [[]|]; auto.
Qed.

Lemma findElementIndex_generic sp elt :
  findElementIndex char_value sp elt =
  GenericTable.findElementIndex (to_generic char_value sp) elt.
Proof.
  destruct elt as [s|]; [|done].
  unfold findElementIndex, GenericTable.findElementIndex. simpl.
  destruct (size sp =? 0); [done|].
  change (probe_body sp s) with
    (GenericTable.probe_body (to_generic char_value sp) s).
  destruct (_ <? size sp).
  - destruct (GenericTable.probe_body _ _ _ _) as [[]|]; auto.
    apply probe_while_generic.
  - apply probe_while_generic.
Qed.

Lemma addElement_generic sp elt :
  GenericTable.addElement strdup (to_generic char_value sp) elt =
  to_generic char_value <$> addElement char_value sp elt.
Proof.
  destruct elt as [s|]; [|done].
  unfold addElement, GenericTable.addElement. simpl.
  destruct (count sp <? size sp); [|done].
  rewrite findElementIndex_generic.
  destruct (GenericTable.findElementIndex _ _) as [[i b]|]; [|done]. simpl.
  destruct b; [done|].
  destruct (aset (data sp) i _) as [d|]; [|done]. simpl.
  destruct (aset (flags sp) i _) as [f|]; done.
Qed.

Lemma removeElement_generic sp elt :
  GenericTable.removeElement (to_generic char_value sp) elt =
  to_generic char_value <$> removeElement char_value sp elt.
Proof.
  destruct elt as [s|]; [|done].
  unfold removeElement, GenericTable.removeElement.
  rewrite findElementIndex_generic.
  destruct (GenericTable.findElementIndex _ _) as [[i b]|]; [|done]. simpl.
  destruct b; [|done]. simpl.
  destruct (aset (flags sp) i _) as [f|]; done.
Qed.

Lemma findElement_generic sp elt :
  GenericTable.findElement (to_generic char_value sp) elt =
  (λ r, (r.1, to_generic char_value r.2)) <$> findElement char_value sp elt.
Proof.
  destruct elt as [s|]; [|done].
  unfold findElement, GenericTable.findElement.
  rewrite findElementIndex_generic.
  destruct (GenericTable.findElementIndex _ _) as [[i b]|]; [|done]. simpl.
  destruct b; [|done]. simpl.
  destruct (data sp !! Z.to_nat i); done.
Qed.

Lemma findElement_frame sp elt p sp' :
  findElement char_value sp elt = Some (p, sp') → sp' = sp.
Proof.
  destruct elt as [s|]; simpl; [|by intros [= _ <-]].
  destruct (findElementIndex char_value sp (Some s)) as [[i b]|]; [|done].
  simpl. destruct b; simpl; [|by intros [= _ <-]].
  destruct (data sp !! Z.to_nat i); simpl; [|done]. by intros [= _ <-].
Qed.

Lemma createSet_generic maxElts :
  GenericTable.createSet maxElts strcmp (strhash char_value) =
  to_generic char_value <$> createSet maxElts.
Proof.
  unfold createSet, GenericTable.createSet. by case_bool_decide.
Qed.

Lemma to_generic_inj sp sp' :
  to_generic char_value sp = to_generic char_value sp' → sp = sp'.
Proof. destruct sp, sp'. unfold to_generic. simpl. by intros [= -> -> -> ->]. Qed.

Lemma reachable_generic sp :
  reachable char_value sp →
  GenericTable.reachable strdup (to_generic char_value sp).
Proof.
  induction 1 as [n sp Hc|sp elt sp' _ IH Ha|sp elt sp' _ IH Hr].
  - apply (GenericTable.reach_create strdup n strcmp (strhash char_value)).
    by rewrite createSet_generic, Hc.
  - apply (GenericTable.reach_add strdup (to_generic char_value sp) elt);
      [done|].
    by rewrite addElement_generic, Ha.
  - apply (GenericTable.reach_remove strdup (to_generic char_value sp) elt);
      [done|].
    by rewrite removeElement_generic, Hr.
Qed.

End WithChars.

End StringTableTheory.

(** * The string table as a set *)

Module StringSet.

Import StringTable StringTableTheory StringScenario.

#[local] Arguments findElementIndex : simpl never.
#[local] Arguments GenericTable.findElementIndex : simpl never.
#[local] Arguments GenericTable.addElement : simpl never.

Section WithChars.

Variable char_value : ascii → Z.

Implicit Types (sp : stringTable) (s t : string).

Lemma string_reachable_rep sp :
  reachable char_value sp → GenericTable.rep (to_generic char_value sp).
Proof.
  intros H. apply (GenericTableTheory.reachable_rep strdup).
  by apply reachable_generic.
Qed.

Lemma string_reachable_consistent sp :
  reachable char_value sp →
  GenericTable.consistent (to_generic char_value sp).
Proof.
  intros H. apply (GenericTableTheory.reachable_consistent strdup).
  - by apply reachable_generic.
  - apply string_callbacks_lawful.
Qed.

(** X10.  [strcmp] and [strhash] agree: [strcmp] returns 0 exactly on strings
    with the same characters before the terminator, such strings have the
    same hash, the hash is an [unsigned] value, and a duplicate compares
    equal to its original. *)
Theorem string_callbacks_agree s t :
  (strcmp s t = 0 ↔ strdup s = strdup t) ∧
  (strcmp s t = 0 → strhash char_value s = strhash char_value t) ∧
  0 <= strhash char_value s < 2 ^ 32 ∧
  strcmp (strdup s) s = 0.
Proof.
  split; [apply strcmp_zero_iff|]. split; [apply strhash_strcmp|]. split.
  - assert (∀ h, 0 <= h < 2 ^ 32 →
                 0 <= strhash_while char_value s h < 2 ^ 32) as Hrange.
    { induction s as [|c r IH]; intros h Hh; simpl; [done|].
      destruct (Ascii.eqb c Ascii.zero); [done|].
      apply IH. unfold wrap. apply Z.mod_pos_bound. lia. }
    apply Hrange. lia.
  - rewrite strcmp_zero_iff. apply strdup_idemp.
Qed.

(** X11.  In every string table built by the operations, [numElements] returns
    the number of filled slots and no two filled slots hold strings with
    the same characters. *)
Theorem string_table_has_no_duplicates sp
    (Hreach : reachable char_value sp) :
  numElements sp = Some (occupied_count (flags sp), sp) ∧
  ∀ (i j : nat) x y,
    flags sp !! i = Some FILLED → data sp !! i = Some (Some x) →
    flags sp !! j = Some FILLED → data sp !! j = Some (Some y) →
    strcmp x y = 0 → i = j.
Proof.
  pose proof (string_reachable_consistent sp Hreach) as (Hrep & _ & Hnd).
  split.
  - pose proof (GenericTableTheory.numElements_rep _ Hrep) as Hn.
    unfold GenericTable.numElements in Hn. simpl in Hn.
    injection Hn as Hn. unfold numElements. by rewrite Hn.
  - intros i j x y Hfi Hdi Hfj Hdj Hc.
    by apply (Hnd i j x y).
Qed.

(** X12.  In a string table built by the operations that has room,
    [addElement] returns and a following [findElement] of the same string
    returns a stored string with the same characters. *)
Theorem string_add_then_find sp s (Hreach : reachable char_value sp)
    (Hroom : count sp < size sp) :
  ∃ sp' x,
    addElement char_value sp (Some s) = Some sp' ∧
    findElement char_value sp' (Some s) = Some (Some x, sp') ∧
    strcmp x s = 0.
Proof.
  pose proof (string_reachable_rep sp Hreach) as Hrep.
  destruct (GenericTableTheory.addElement_findElement strdup
              (to_generic char_value sp) s Hrep Hroom)
    as (g' & x & Ha & Hf & Hc).
  { apply (GenericTable.law_dup _ _ (string_callbacks_lawful char_value sp)). }
  rewrite addElement_generic in Ha.
  destruct (addElement char_value sp (Some s)) as [sp'|]; [|done].
  simpl in Ha. simplify_eq.
  rewrite findElement_generic in Hf.
  destruct (findElement char_value sp' (Some s)) as [[p sp'']|] eqn:Hfs;
    [|done].
  pose proof (findElement_frame char_value _ _ _ _ Hfs) as ->.
  simpl in Hf. assert (p = Some x) as -> by congruence.
  by exists sp', x.
Qed.

(** X13.  In a string table built by the operations, removing a string that
    [findElement] finds returns, takes one from [count], and afterwards
    [findElement] returns null for it. *)
Theorem string_remove_then_find sp s x (Hreach : reachable char_value sp)
    (Hfound : findElement char_value sp (Some s) = Some (Some x, sp)) :
  ∃ sp',
    removeElement char_value sp (Some s) = Some sp' ∧
    count sp' = count sp - 1 ∧
    findElement char_value sp' (Some s) = Some (None, sp').
Proof.
  pose proof (string_reachable_consistent sp Hreach) as Hcons.
  assert (GenericTable.member (to_generic char_value sp) s) as Hm.
  { pose proof (findElement_generic char_value sp (Some s)) as Hg.
    rewrite Hfound in Hg. simpl in Hg.
    destruct (GenericTableTheory.findElement_found _ s x (proj1 Hcons) Hg)
      as (j & _ & _ & Hx & Hc).
    by exists (Z.to_nat j), x. }
  destruct (GenericTableTheory.removeElement_findElement strdup _ s Hcons
              (string_callbacks_lawful char_value sp) Hm)
    as (g' & Hr & Hcount & _ & _ & Hf).
  rewrite removeElement_generic in Hr.
  destruct (removeElement char_value sp (Some s)) as [sp'|]; [|done].
  simpl in Hr. simplify_eq.
  rewrite findElement_generic in Hf.
  destruct (findElement char_value sp' (Some s)) as [[p sp'']|] eqn:Hfs;
    [|done].
  pose proof (findElement_frame char_value _ _ _ _ Hfs) as ->.
  simpl in Hf. assert (p = None) as -> by congruence.
  by exists sp'.
Qed.

(** ** Enumeration and destruction *)

Lemma filled_cells_fmap (f : string → string) (fl : list Z)
    (d : list (option string)) :
  GenericTable.filled_cells fl ((λ p : option string, f <$> p) <$> d)
  = (λ p : option string, f <$> p) <$> GenericTable.filled_cells fl d.
Proof.
  revert d. induction fl as [|x fl IH]; intros [|p d]; simpl; try done.
  destruct (x =? FILLED); simpl; by rewrite IH.
Qed.

(** The table whose cells are the duplicates of the cells of [sp]. *)
Lemma getElements_for_generic sp fuel i w r :
  (∀ k : nat, flags sp !! k = Some FILLED →
              ∃ x, data sp !! k = Some (Some x)) →
  getElements_for fuel sp i w r =
  GenericTable.getElements_for fuel
    {| GenericTable.data := (λ p : option string, strdup <$> p) <$> data sp;
       GenericTable.flags := flags sp;
       GenericTable.count := count sp;
       GenericTable.size := size sp;
       GenericTable.compare := strcmp;
       GenericTable.hash := strhash char_value |} i w r.
Proof.
  intros Hown. revert i w r.
  induction fuel as [|fuel IH]; intros i w r; simpl; [done|].
  destruct (i <? size sp); [|done].
  destruct (flags sp !! Z.to_nat i) as [f|] eqn:Hf; simpl; [|done].
  destruct (Z.eqb_spec f FILLED) as [->|Hne]; [|apply IH].
  destruct (Hown _ Hf) as [x Hx].
  rewrite list_lookup_fmap, Hx. simpl.
  destruct (aset r w (Some (strdup x))); simpl; [apply IH|done].
Qed.

(** X14.  In a string table built by the operations, [getElements] returns, in
    the order of the slot array, one duplicate for each filled slot,
    [count] cells in all, and leaves the table as it is. *)
Theorem string_getElements_duplicates sp
    (Hreach : reachable char_value sp) :
  ∃ r, getElements sp = Some (r, sp) ∧
       r = (λ p : option string, strdup <$> p) <$> GenericTable.filled_cells (flags sp) (data sp) ∧
       Z.of_nat (length r) = count sp.
Proof.
  pose proof (string_reachable_rep sp Hreach) as Hrep.
  set (g := {| GenericTable.data := (λ p : option string, strdup <$> p) <$> data sp;
               GenericTable.flags := flags sp;
               GenericTable.count := count sp;
               GenericTable.size := size sp;
               GenericTable.compare := strcmp;
               GenericTable.hash := strhash char_value |}).
  assert (GenericTable.rep g) as Hrepg.
  { destruct Hrep as [H1 H2 H3 H4 H5 H6]. split; simpl in *; try done.
    - by rewrite length_fmap.
    - intros i Hi. destruct (H6 i Hi) as [x Hx]. exists (strdup x).
      by rewrite list_lookup_fmap, Hx. }
  pose proof (GenericTableTheory.getElements_rep g Hrepg) as Hg.
  unfold GenericTable.getElements in Hg. simpl in Hg.
  unfold getElements.
  rewrite (getElements_for_generic sp)
    by (intros k Hk; apply (GenericTable.rep_owned _ Hrep k Hk)).
  fold g.
  destruct (GenericTable.getElements_for _ g 0 0 _) as [r|]; [|done].
  simpl in Hg. simpl. assert (r = GenericTable.filled_cells (flags sp)
                                     ((λ p : option string, strdup <$> p) <$> data sp)) as ->
    by congruence.
  eexists. split; [done|]. split; [apply filled_cells_fmap|].
  rewrite GenericTableTheory.filled_cells_length.
  - symmetry. apply (GenericTable.rep_count _ Hrep).
  - destruct Hrepg as [_ H2 H3 _ _ _]. simpl in *. congruence.
Qed.

Lemma destroySet_for_spec sp fuel (k : nat) (freed : list Z) :
  0 <= count sp <= size sp → size sp < 2 ^ 31 →
  length (flags sp) = Z.to_nat (size sp) →
  GenericTable.nonempty_owned (to_generic char_value sp) →
  (k <= Z.to_nat (count sp))%nat →
  (Z.to_nat (count sp) - k <= fuel)%nat →
  destroySet_for fuel sp (Z.of_nat k) freed =
  Some (freed ++
        filter (λ i, flags sp !! Z.to_nat i ≠ Some EMPTY)
          (Z.of_nat <$> seq k (Z.to_nat (count sp) - k))).
Proof.
  intros Hc Hs Hlen Hown. revert k freed.
  induction fuel as [|fuel IH]; intros k freed Hk Hfuel.
  - assert (k = Z.to_nat (count sp)) as -> by lia.
    simpl. rewrite (proj2 (Z.ltb_ge _ _)) by lia.
    rewrite Nat.sub_diag. simpl. by rewrite app_nil_r.
  - destruct (decide (k = Z.to_nat (count sp))) as [->|Hne].
    { simpl. rewrite (proj2 (Z.ltb_ge _ _)) by lia.
      rewrite Nat.sub_diag. simpl. by rewrite app_nil_r. }
    simpl. rewrite (proj2 (Z.ltb_lt _ _)) by lia. rewrite Nat2Z.id.
    destruct (lookup_lt_is_Some_2 (flags sp) k ltac:(lia)) as [f Hf].
    rewrite Hf. simpl.
    replace (Z.to_nat (count sp) - k)%nat
      with (S (Z.to_nat (count sp) - S k)) by lia.
    simpl. rewrite filter_cons, Nat2Z.id, Hf.
    assert (wrap (Z.of_nat k + 1) = Z.of_nat (S k)) as ->.
    { unfold wrap. rewrite Z.mod_small; lia. }
    destruct (Z.eqb_spec f EMPTY) as [->|Hnf]; simpl.
    + destruct (decide (Some EMPTY ≠ Some EMPTY)) as [Hbad|_]; [done|].
      apply IH; lia.
    + destruct (decide (Some f ≠ Some EMPTY)) as [_|Hbad];
        [|destruct Hbad; congruence].
      destruct (Hown k f Hf Hnf) as [x Hx]. simpl in Hx. rewrite Hx. simpl.
      rewrite IH by lia. by rewrite <- app_assoc.
Qed.

(** X15.  In a string table built by the operations, [destroySet] frees the
    element of slot [i] exactly when [i] is below [count] and the flag of
    the slot is not [EMPTY]; the element of a filled slot whose index is
    [count] or more is not freed. *)
Theorem destroySet_frees_slots_below_count sp
    (Hreach : reachable char_value sp) :
  ∃ freed, destroySet sp = Some freed ∧
    (∀ i, i ∈ freed ↔
          0 <= i < count sp ∧ flags sp !! Z.to_nat i ≠ Some EMPTY) ∧
    (∀ (i : nat), flags sp !! i = Some FILLED → count sp <= Z.of_nat i →
                  Z.of_nat i ∉ freed).
Proof.
  pose proof (string_reachable_rep sp Hreach) as Hrep.
  pose proof (GenericTableTheory.rep_count_range _ Hrep) as Hc.
  pose proof (GenericTable.rep_size _ Hrep) as Hs.
  pose proof (GenericTable.rep_flags _ Hrep) as Hlen.
  simpl in Hc, Hs, Hlen.
  pose proof (GenericTableTheory.reachable_nonempty_owned strdup _
                (reachable_generic char_value sp Hreach)) as Hown.
  pose proof (destroySet_for_spec sp (Z.to_nat (count sp)) 0 [] Hc
                ltac:(lia) Hlen Hown ltac:(lia) ltac:(lia)) as Hd.
  eexists. split; [exact Hd|].
  assert (∀ i, i ∈ [] ++ filter (λ i, flags sp !! Z.to_nat i ≠ Some EMPTY)
                 (Z.of_nat <$> seq 0 (Z.to_nat (count sp) - 0)) ↔
               0 <= i < count sp ∧ flags sp !! Z.to_nat i ≠ Some EMPTY)
    as Hmem.
  { intros i. simpl. rewrite list_elem_of_filter, list_elem_of_fmap.
    split.
    - intros [Hne (k & -> & Hk%elem_of_seq)]. split; [lia|done].
    - intros [Hi Hne]. split; [done|]. exists (Z.to_nat i).
      split; [lia|]. apply elem_of_seq. lia. }
  split; [exact Hmem|].
  intros i Hf Hi Hin. apply Hmem in Hin. lia.
Qed.

End WithChars.

Lemma one_string_reachable : reachable uchar one_string.
Proof.
  apply (reach_add uchar
           {| data := [None; None; None; None];
              flags := [EMPTY; EMPTY; EMPTY; EMPTY];
              count := 0; size := 4 |} (Some "c"%string)).
  - apply (reach_create uchar 4). reflexivity.
  - vm_compute. reflexivity.
Qed.

Lemma string_table_has_no_duplicates_witness :
  numElements one_string
    = Some (occupied_count (flags one_string), one_string) ∧
  ∀ (i j : nat) x y,
    flags one_string !! i = Some FILLED →
    data one_string !! i = Some (Some x) →
    flags one_string !! j = Some FILLED →
    data one_string !! j = Some (Some y) →
    strcmp x y = 0 → i = j.
Proof.
  apply (string_table_has_no_duplicates uchar one_string).
  apply one_string_reachable.
Defined.

Lemma string_add_then_find_witness :
  ∃ sp' x,
    addElement uchar one_string (Some "d"%string) = Some sp' ∧
    findElement uchar sp' (Some "d"%string) = Some (Some x, sp') ∧
    strcmp x "d" = 0.
Proof.
  apply (string_add_then_find uchar one_string "d").
  - apply one_string_reachable.
  - simpl. lia.
Defined.

Lemma string_remove_then_find_witness :
  ∃ sp',
    removeElement uchar one_string (Some "c"%string) = Some sp' ∧
    count sp' = count one_string - 1 ∧
    findElement uchar sp' (Some "c"%string) = Some (None, sp').
Proof.
  apply (string_remove_then_find uchar one_string "c" "c").
  - apply one_string_reachable.
  - vm_compute. reflexivity.
Defined.

Lemma string_getElements_duplicates_witness :
  ∃ r, getElements one_string = Some (r, one_string) ∧
       r = (λ p : option string, strdup <$> p)
           <$> GenericTable.filled_cells (flags one_string)
                 (data one_string) ∧
       Z.of_nat (length r) = count one_string.
Proof.
  apply (string_getElements_duplicates uchar one_string).
  apply one_string_reachable.
Defined.

Lemma destroySet_frees_slots_below_count_witness :
  (∃ freed, destroySet one_string = Some freed ∧
     (∀ i, i ∈ freed ↔
           0 <= i < count one_string ∧
           flags one_string !! Z.to_nat i ≠ Some EMPTY) ∧
     (∀ (i : nat), flags one_string !! i = Some FILLED →
                   count one_string <= Z.of_nat i →
                   Z.of_nat i ∉ freed)) ∧
  destroySet one_string = Some [] ∧
  flags one_string !! 3%nat = Some FILLED.
Proof.
  split; [|split; [vm_compute; reflexivity|done]].
  apply (destroySet_frees_slots_below_count uchar one_string).
  apply one_string_reachable.
Defined.

End StringSet.

(** * Properties of the early table *)

Module EarlySet.

Import EarlyTable StringScenario.

#[local] Arguments findElementIndex : simpl never.

Section WithHash.

Variable strhash : string → Z.

Implicit Types (sp : stringTable) (s : string).

Lemma probe_body_total sp s index fd :
  well_formed sp → 0 <= index < size sp →
  is_Some (probe_body sp s index fd).
Proof.
  intros (Hs & Hfl & Hd & Hown) Hi. unfold probe_body.
  destruct (lookup_lt_is_Some_2 (flags sp) (Z.to_nat index)) as [f Hf];
    [lia|].
  rewrite Hf. simpl. destruct (f =? EMPTY); [done|].
  destruct (Z.eqb_spec f FILLED) as [->|Hne]; simpl.
  - destruct (Hown _ Hf) as [x ->]. simpl.
    by destruct (StringTable.strcmp x s =? 0).
  - done.
Qed.

Lemma probe_body_Return sp s index fd i b :
  probe_body sp s index fd = Some (Return i b) →
  i = index ∧
  (b = true →
     flags sp !! Z.to_nat i = Some FILLED ∧
     ∃ x, data sp !! Z.to_nat i = Some (Some x) ∧ StringTable.strcmp x s = 0).
Proof.
  unfold probe_body.
  destruct (flags sp !! Z.to_nat index) as [f|] eqn:Hf; simpl; [|done].
  destruct (f =? EMPTY); [by intros [= <- <-]|].
  destruct (Z.eqb_spec f FILLED) as [->|Hne]; simpl.
  - destruct (data sp !! Z.to_nat index) as [[x|]|] eqn:Hd; simpl;
      try done.
    destruct (Z.eqb_spec (StringTable.strcmp x s) 0); simpl; [|done].
    intros [= <- <-]. split; [done|]. intros _. split; [done|]. by exists x.
  - done.
Qed.

Lemma probe_body_Continue sp s index fd i fd' :
  probe_body sp s index fd = Some (Continue i fd') →
  i = wrap (index + 1) ∧ (fd' = fd ∨ fd' = index).
Proof.
  unfold probe_body.
  destruct (flags sp !! Z.to_nat index) as [f|]; simpl; [|done].
  destruct (f =? EMPTY); [done|].
  destruct (f =? FILLED); simpl.
  - destruct (data sp !! Z.to_nat index) as [[x|]|]; simpl; try done.
    destruct (StringTable.strcmp x s =? 0); simpl; [done|].
    intros [= <- <-]. split; [done|].
    destruct ((f =? DELETED) && (fd =? size sp)); auto.
  - intros [= <- <-]. split; [done|].
    destruct ((f =? DELETED) && (fd =? size sp)); auto.
Qed.

(** The loop returns; its result is not below the slot it started from,
    and a result with [found = true] is the index of a filled slot holding
    a string with the same characters. *)
Lemma probe_while_spec sp s fuel lo index fd :
  well_formed sp →
  0 <= lo <= index → index <= size sp → lo <= fd <= size sp →
  (Z.to_nat (size sp - index) <= fuel)%nat →
  ∃ i b,
    probe_while fuel sp s index fd = Some (i, b) ∧
    lo <= i <= size sp ∧
    (b = true →
       i < size sp ∧ flags sp !! Z.to_nat i = Some FILLED ∧
       ∃ x, data sp !! Z.to_nat i = Some (Some x) ∧
            StringTable.strcmp x s = 0).
Proof.
  intros Hwf. pose proof Hwf as (Hs & _).
  revert index fd.
  induction fuel as [|fuel IH]; intros index fd Hlo Hi Hfd Hfuel; simpl.
  - rewrite (proj2 (Z.ltb_ge _ _)) by lia.
    exists fd, false. split; [done|]. split; [lia|done].
  - destruct (Z.ltb_spec index (size sp)) as [Hlt|Hge].
    + destruct (probe_body_total sp s index fd Hwf ltac:(lia))
        as [[i b|i fd'] Hb]; rewrite Hb.
      * apply probe_body_Return in Hb as [-> Hb].
        exists index, b. split; [done|]. split; [lia|].
        intros Ht. destruct (Hb Ht) as [? ?]. split; [lia|done].
      * apply probe_body_Continue in Hb as [-> Hfd'].
        rewrite GenericTableTheory.wrap_small by lia.
        apply IH; lia.
    + exists fd, false. split; [done|]. split; [lia|done].
Qed.

(** When every slot from [index] to the end is filled with a string that
    differs from [s], the loop returns [firstDeleted]. *)
Lemma probe_while_all_filled sp s fuel index fd :
  size sp < 2 ^ 32 → 0 <= index <= size sp →
  (∀ j, index <= j < size sp →
        ∃ x, flags sp !! Z.to_nat j = Some FILLED ∧
             data sp !! Z.to_nat j = Some (Some x) ∧
             StringTable.strcmp x s ≠ 0) →
  (Z.to_nat (size sp - index) <= fuel)%nat →
  probe_while fuel sp s index fd = Some (fd, false).
Proof.
  intros Hs. revert index fd.
  induction fuel as [|fuel IH]; intros index fd Hi Hall Hfuel; simpl.
  - by rewrite (proj2 (Z.ltb_ge _ _)) by lia.
  - destruct (Z.ltb_spec index (size sp)) as [Hlt|Hge]; [|done].
    destruct (Hall index ltac:(lia)) as (x & Hf & Hd & Hne).
    unfold probe_body. rewrite Hf, Hd. simpl.
    rewrite (proj2 (Z.eqb_neq _ _)) by done. simpl.
    rewrite GenericTableTheory.wrap_small by lia.
    apply IH; [lia| |lia].
    intros j Hj. apply Hall. lia.
Qed.

(** X16.  The probe of the early table returns an index between the home slot
    and [size]; with [found = true] the index is that of a filled slot
    holding a string with the same characters; and when every slot from
    the home slot to the end of the array is filled with another string,
    the result is [size] with [found = false], whatever the slots below
    the home slot hold: the probe does not wrap around. *)
Theorem early_probe_does_not_wrap sp s (Hwf : well_formed sp)
    (Hpos : 0 < size sp) :
  ∃ i found,
    findElementIndex strhash sp (Some s) = Some (i, found) ∧
    wrap (strhash s) mod size sp <= i <= size sp ∧
    (found = true →
       i < size sp ∧ flags sp !! Z.to_nat i = Some FILLED ∧
       ∃ x, data sp !! Z.to_nat i = Some (Some x) ∧
            StringTable.strcmp x s = 0) ∧
    ((∀ j, wrap (strhash s) mod size sp <= j < size sp →
           ∃ x, flags sp !! Z.to_nat j = Some FILLED ∧
                data sp !! Z.to_nat j = Some (Some x) ∧
                StringTable.strcmp x s ≠ 0) →
     i = size sp ∧ found = false).
Proof.
  pose proof Hwf as (Hs & _).
  pose proof (Z.mod_pos_bound (wrap (strhash s)) (size sp) Hpos) as Hh.
  unfold findElementIndex. simpl.
  rewrite (proj2 (Z.eqb_neq _ _)) by lia.
  destruct (probe_while_spec sp s (Z.to_nat (size sp))
              (wrap (strhash s) mod size sp)
              (wrap (strhash s) mod size sp) (size sp) Hwf)
    as (i & b & Hp & Hi & Hb); try lia.
  exists i, b. split; [done|]. split; [done|]. split; [done|].
  intros Hall.
  rewrite probe_while_all_filled in Hp; try done; try lia.
  by simplify_eq.
Qed.

(** The invariant of the early tables built by the operations: no flag
    was ever written. *)
Lemma reachable_flags_empty sp :
  reachable strhash sp →
  0 <= size sp < 2 ^ 31 ∧ 0 <= count sp <= size sp ∧
  length (data sp) = Z.to_nat (size sp) ∧
  flags sp = replicate (Z.to_nat (size sp)) EMPTY.
Proof.
  assert (∀ sp s, 0 < size sp →
            flags sp = replicate (Z.to_nat (size sp)) EMPTY →
            findElementIndex strhash sp (Some s)
            = Some (wrap (strhash s) mod size sp, false)) as Hprobe.
  { intros sp0 s Hpos Hfl.
    pose proof (Z.mod_pos_bound (wrap (strhash s)) (size sp0) Hpos) as Hh.
    unfold findElementIndex. simpl.
    rewrite (proj2 (Z.eqb_neq _ _)) by lia.
    destruct (Z.to_nat (size sp0)) as [|fuel] eqn:Hfuel; [lia|]. simpl.
    rewrite (proj2 (Z.ltb_lt _ _)) by lia.
    unfold probe_body. rewrite Hfl, lookup_replicate_2 by lia. done. }
  induction 1 as [n sp Hc|sp elt sp' _ IH Ha|sp elt sp' _ IH Hr].
  - unfold createSet in Hc. case_bool_decide; [|done]. simplify_eq. simpl.
    rewrite length_replicate. repeat split; try done; lia.
  - destruct IH as (Hs & Hc & Hd & Hfl).
    destruct elt as [s|]; [|done]. unfold addElement in Ha. simpl in Ha.
    destruct (Z.ltb_spec (count sp) (size sp)) as [Hroom|]; [|done].
    rewrite Hprobe in Ha by (done || lia). simpl in Ha.
    destruct (aset (data sp) _ _) as [d|] eqn:Hset; [|done].
    simpl in Ha. simplify_eq. simpl.
    apply GenericTableTheory.aset_Some in Hset as [_ ->].
    rewrite length_insert, GenericTableTheory.wrap_small by lia.
    repeat split; try done; lia.
  - destruct IH as (Hs & Hc & Hd & Hfl).
    destruct elt as [s|]; [|simpl in Hr; by simplify_eq].
    unfold removeElement in Hr.
    destruct (Z.eqb_spec (size sp) 0) as [H0|Hne].
    + unfold findElementIndex in Hr. simpl in Hr.
      by rewrite H0 in Hr.
    + rewrite Hprobe in Hr by (done || lia). simpl in Hr. by simplify_eq.
Qed.

(** X17.  In an early table built by the operations no slot is ever marked
    filled: every flag is [EMPTY]; a search returns null and a removal
    changes nothing, for every string; and when there is room
    [addElement] returns, adds one to [count] (also for a string added
    before), leaves the flags as they are, and the string it added is not
    found. *)
Theorem early_add_is_never_found sp (Hreach : reachable strhash sp) :
  flags sp = replicate (Z.to_nat (size sp)) EMPTY ∧
  (∀ s, 0 < size sp →
        findElement strhash sp (Some s) = Some (None, sp) ∧
        removeElement strhash sp (Some s) = Some sp) ∧
  (∀ s, count sp < size sp →
        ∃ sp', addElement strhash sp (Some s) = Some sp' ∧
               count sp' = count sp + 1 ∧
               flags sp' = flags sp ∧
               findElement strhash sp' (Some s) = Some (None, sp')).
Proof.
  assert (∀ sp s, reachable strhash sp → 0 < size sp →
            findElementIndex strhash sp (Some s)
            = Some (wrap (strhash s) mod size sp, false)) as Hprobe.
  { intros sp0 s Hr Hpos.
    destruct (reachable_flags_empty sp0 Hr) as (_ & _ & _ & Hfl).
    pose proof (Z.mod_pos_bound (wrap (strhash s)) (size sp0) Hpos) as Hh.
    unfold findElementIndex. simpl.
    rewrite (proj2 (Z.eqb_neq _ _)) by lia.
    destruct (Z.to_nat (size sp0)) as [|fuel] eqn:Hfuel; [lia|]. simpl.
    rewrite (proj2 (Z.ltb_lt _ _)) by lia.
    unfold probe_body. rewrite Hfl, lookup_replicate_2 by lia. done. }
  destruct (reachable_flags_empty sp Hreach) as (Hs & Hc & Hd & Hfl).
  split; [done|]. split.
  - intros s Hpos. unfold findElement, removeElement.
    by rewrite Hprobe.
  - intros s Hroom.
    pose proof (Z.mod_pos_bound (wrap (strhash s)) (size sp) ltac:(lia)) as Hh.
    destruct (addElement strhash sp (Some s)) as [sp'|] eqn:Ha.
    + assert (reachable strhash sp') as Hreach'
        by (eapply reach_add; eauto).
      assert (size sp' = size sp ∧ count sp' = count sp + 1
              ∧ flags sp' = flags sp) as (Hs' & Hc' & Hf').
      { unfold addElement in Ha. simpl in Ha.
        rewrite (proj2 (Z.ltb_lt _ _)) in Ha by done.
        rewrite Hprobe in Ha by (done || lia). simpl in Ha.
        destruct (aset (data sp) _ _) as [d|]; [|done].
        simpl in Ha. simplify_eq. simpl.
        by rewrite GenericTableTheory.wrap_small by lia. }
      exists sp'. split; [done|]. split; [done|]. split; [done|].
      unfold findElement. rewrite (Hprobe sp' s Hreach') by lia. done.
    + exfalso. unfold addElement in Ha. simpl in Ha.
      rewrite (proj2 (Z.ltb_lt _ _)) in Ha by done.
      rewrite Hprobe in Ha by (done || lia). simpl in Ha.
      rewrite GenericTableTheory.aset_in_bounds in Ha by (rewrite Hd; lia).
      done.
Qed.

End WithHash.

Lemma early_one_reachable : reachable early_hash early_one.
Proof.
  apply (reach_add early_hash
           {| data := [None; None]; flags := [EMPTY; EMPTY];
              count := 0; size := 2 |} (Some "c"%string)).
  - apply (reach_create early_hash 2). reflexivity.
  - vm_compute. reflexivity.
Qed.

Lemma early_add_is_never_found_witness :
  flags early_one = replicate (Z.to_nat (size early_one)) EMPTY ∧
  (∀ s, 0 < size early_one →
        findElement early_hash early_one (Some s) = Some (None, early_one) ∧
        removeElement early_hash early_one (Some s) = Some early_one) ∧
  (∀ s, count early_one < size early_one →
        ∃ sp', addElement early_hash early_one (Some s) = Some sp' ∧
               count sp' = count early_one + 1 ∧
               flags sp' = flags early_one ∧
               findElement early_hash sp' (Some s) = Some (None, sp')).
Proof.
  apply (early_add_is_never_found early_hash early_one).
  apply early_one_reachable.
Defined.

Lemma early_last_filled_well_formed : well_formed early_last_filled.
Proof.
  split; [simpl; lia|]. split; [done|]. split; [done|].
  intros [|[|i]]; simpl; [done|eauto|done].
Qed.

Lemma early_probe_does_not_wrap_witness :
  ∃ i found,
    findElementIndex early_hash early_last_filled (Some "c"%string)
      = Some (i, found) ∧
    wrap (early_hash "c") mod size early_last_filled <= i
      <= size early_last_filled ∧
    (found = true →
       i < size early_last_filled ∧
       flags early_last_filled !! Z.to_nat i = Some FILLED ∧
       ∃ x, data early_last_filled !! Z.to_nat i = Some (Some x) ∧
            StringTable.strcmp x "c" = 0) ∧
    ((∀ j, wrap (early_hash "c") mod size early_last_filled <= j
             < size early_last_filled →
           ∃ x, flags early_last_filled !! Z.to_nat j = Some FILLED ∧
                data early_last_filled !! Z.to_nat j = Some (Some x) ∧
                StringTable.strcmp x "c" ≠ 0) →
     i = size early_last_filled ∧ found = false).
Proof.
  apply (early_probe_does_not_wrap early_hash early_last_filled "c").
  - apply early_last_filled_well_formed.
  - simpl. lia.
Defined.

(** In the early table whose slot 0 is empty and whose last slot holds
    ["a"], the probe for ["c"], whose home slot is the last one, returns
    [size]: it does not reach the empty slot 0. *)
Lemma early_probe_example :
  flags early_last_filled !! 0%nat = Some EMPTY ∧
  wrap (early_hash "c") mod size early_last_filled = 1 ∧
  findElementIndex early_hash early_last_filled (Some "c"%string)
    = Some (2, false).
Proof. split; [done|]. split; vm_compute; reflexivity. Qed.

End EarlySet.
